(** * gatsby-theme-novela: the page-creation pass ([gatsby/node/createPages.js])

    A shallow embedding of [createPages.js] and the properties of its
    utility functions ([buildPaginatedPath], [slugify], [getUniqueListBy]),
    of the source aggregation and of the page plan it emits. *)

From Stdlib Require Import List ZArith NArith Lia Bool Ascii Permutation Sorted.
From Stdlib Require String DecimalString DecimalZ DecimalPos.
Import ListNotations String.StringSyntax.

Set Implicit Arguments.

(** ** JavaScript strings

    A JavaScript string is a sequence of 16-bit code units.  The regular
    expressions of [slugify] have no [u] flag and [split], [trim] and
    [includes] work on code units too, so code units are what is modelled. *)

Module JS.

Definition code_unit := N.
Definition jsstring := list code_unit.

(** A string literal of the source (ASCII only). *)
Definition str (s : String.string) : jsstring :=
  map N_of_ascii (String.list_ascii_of_string s).
Arguments str s%_string_scope.

(** [a === b] on strings. *)
Fixpoint eqb (a b : jsstring) : bool :=
  match a, b with
  | [], [] => true
  | x :: a', y :: b' => N.eqb x y && eqb a' b'
  | _, _ => false
  end.

(** The parts of the engine's string library that are Unicode tables:
    [String.prototype.toLowerCase] and [String.prototype.normalize("NFD")]. *)
Class Engine := {
  toLowerCase : jsstring -> jsstring;
  normalizeNFD : jsstring -> jsstring
}.

(** [ToString] of an integral Number, as a template literal applies it. *)
Definition Number_toString (n : Z) : jsstring :=
  str (DecimalString.NilZero.string_of_int (Z.to_int n)).

(** [arr.slice(start, end)] for [0 <= start <= end]. *)
Definition slice {A} (start end_ : nat) (arr : list A) : list A :=
  firstn (end_ - start) (skipn start arr).

(** [s.split(sep)] for a separator of one code unit: never the empty array. *)
Fixpoint split (sep : code_unit) (s : jsstring) : list jsstring :=
  match s with
  | [] => [[]]
  | c :: rest =>
      if N.eqb c sep then [] :: split sep rest
      else match split sep rest with
           | piece :: pieces => (c :: piece) :: pieces
           | [] => [[c]]
           end
  end.

(** WhiteSpace and LineTerminator code units, which [trim] strips. *)
Definition isWhiteSpace (c : code_unit) : bool :=
  ((9 <=? c) && (c <=? 13) || (c =? 32) || (c =? 160) || (c =? 5760)
   || (8192 <=? c) && (c <=? 8202) || (c =? 8232) || (c =? 8233)
   || (c =? 8239) || (c =? 8287) || (c =? 12288) || (c =? 65279))%N.

Fixpoint dropWhile {A} (p : A -> bool) (l : list A) : list A :=
  match l with
  | [] => []
  | x :: rest => if p x then dropWhile p rest else l
  end.

Definition dropWhileEnd {A} (p : A -> bool) (l : list A) : list A :=
  rev (dropWhile p (rev l)).

Definition trim (s : jsstring) : jsstring :=
  dropWhileEnd isWhiteSpace (dropWhile isWhiteSpace s).

Fixpoint startsWith (s prefix : jsstring) : bool :=
  match prefix, s with
  | [], _ => true
  | p :: prefix', c :: s' => N.eqb c p && startsWith s' prefix'
  | _ :: _, [] => false
  end.

(** [s.includes(t)]: [t] occurs in [s] at some position. *)
Fixpoint includes (s t : jsstring) : bool :=
  startsWith s t ||
  match s with
  | [] => false
  | _ :: s' => includes s' t
  end.

(** *** [String.prototype.replace] with a global regular expression

    A regular expression is given by its matcher: at a position of the
    subject ([at_start] tells whether it is position 0, [rest] is the subject
    from that position on) it answers the length of the match there, if
    any.  [replace] scans left to right; a match is replaced and the scan
    resumes after it, an unmatched code unit is copied.  [skip] counts the
    code units of the current match still to be passed over. *)

Definition matcher := bool -> jsstring -> option nat.

Fixpoint replace_from (m : matcher) (by_ : jsstring)
         (skip : nat) (at_start : bool) (s : jsstring) : jsstring :=
  match skip, s with
  | S k, _ :: rest => replace_from m by_ k false rest
  | S _, [] => []
  | O, [] => match m at_start [] with Some _ => by_ | None => [] end
  | O, c :: rest =>
      match m at_start s with
      | Some (S k) => by_ ++ replace_from m by_ k false rest
      | Some O => by_ ++ c :: replace_from m by_ 0 false rest
      | None => c :: replace_from m by_ 0 false rest
      end
  end.

Definition replace (m : matcher) (by_ : jsstring) (s : jsstring) : jsstring :=
  replace_from m by_ 0 true s.

(** Length of the longest prefix of [s] made of code units in the class [p]. *)
Fixpoint span_len (p : code_unit -> bool) (s : jsstring) : nat :=
  match s with
  | [] => 0
  | c :: rest => if p c then S (span_len p rest) else 0
  end.

(** The greedy pattern "[least] or more code units of the class [p]":
    [[p]+] is [match_run 1 p], and [cc+] for a single code unit [c] is
    [match_run 2] of the class that holds [c] alone. *)
Definition match_run (least : nat) (p : code_unit -> bool) : matcher :=
  fun _ s =>
    let n := span_len p s in
    if (least <=? n)%nat then Some n else None.

(** The pattern "one code unit of the class [p]". *)
Definition match_class (p : code_unit -> bool) : matcher :=
  fun _ s =>
    match s with
    | c :: _ => if p c then Some 1%nat else None
    | [] => None
    end.

End JS.

Import JS.

(** ** Data model

    The fields of the normalized records that [createPages.js] reads.  A
    post whose front matter has no author has [author = None]
    ([undefined]); [dateForSEO] is the time value of
    [new Date(article.dateForSEO)]. *)

Module Article.
Record t := {
  id : jsstring;
  title : jsstring;
  slug : jsstring;
  author : option jsstring;
  dateForSEO : Z;
  secret : bool
}.
End Article.

Module Author.
Record t := {
  name : jsstring;
  slug : jsstring
}.
End Author.

(** ** Utility functions *)

Definition slash : code_unit := 47%N.
Definition hyphen : code_unit := 45%N.
Definition comma : code_unit := 44%N.

(** Lines 22-27. *)
Definition buildPaginatedPath (index : Z) (basePath : jsstring) : jsstring :=
  if eqb basePath (str "/") then
    if (index >? 1)%Z then basePath ++ str "page/" ++ Number_toString index
    else basePath
  else
    if (index >? 1)%Z then basePath ++ str "/page/" ++ Number_toString index
    else basePath.

(** The character classes of the regular expressions of [slugify]. *)
Definition is_combining_mark (c : code_unit) : bool :=
  ((768 <=? c) && (c <=? 879))%N.          (* [\u0300-\u036f] *)

Definition is_a_z_0_9 (c : code_unit) : bool :=
  ((97 <=? c) && (c <=? 122) || (48 <=? c) && (c <=? 57))%N.  (* [a-z0-9] *)

Definition is_slash (c : code_unit) : bool := N.eqb c slash.
Definition is_hyphen (c : code_unit) : bool := N.eqb c hyphen.

(** [(^-|-$)+]: each iteration takes one hyphen, which must be the first
    code unit of the subject or its last; the result is the number of
    iterations the greedy [+] makes from the current position. *)
Fixpoint edge_hyphens (at_start : bool) (s : jsstring) : nat :=
  match s with
  | c :: rest =>
      if is_hyphen c && (at_start || match rest with [] => true | _ => false end)
      then S (edge_hyphens false rest)
      else 0
  | [] => 0
  end.

Definition match_edge_hyphens : matcher :=
  fun at_start s =>
    match edge_hyphens at_start s with
    | O => None
    | n => Some n
    end.

Section WithEngine.
Context {engine : Engine}.

(** Lines 29-38. *)
Definition slugify (str_ base : jsstring) : jsstring :=
  let slug :=
    replace match_edge_hyphens []
      (replace (match_run 1 (fun c => negb (is_a_z_0_9 c))) (str "-")
        (replace (match_class is_combining_mark) []
          (normalizeNFD (toLowerCase str_)))) in
  replace (match_run 2 is_slash) (str "/") (base ++ str "/" ++ slug).

End WithEngine.

(** [new Map(pairs)]: a map that keeps its keys in insertion order; setting
    a key that is present replaces its value in place. *)
Fixpoint Map_set {V} (k : jsstring) (v : V) (m : list (jsstring * V))
  : list (jsstring * V) :=
  match m with
  | [] => [(k, v)]
  | (k', v') :: rest =>
      if eqb k k' then (k, v) :: rest else (k', v') :: Map_set k v rest
  end.

Definition Map_new {V} (pairs : list (jsstring * V)) : list (jsstring * V) :=
  fold_left (fun m kv => Map_set (fst kv) (snd kv) m) pairs [].

(** [m.get(k)]. *)
Fixpoint Map_get {V} (k : jsstring) (m : list (jsstring * V)) : option V :=
  match m with
  | [] => None
  | (k', v') :: rest => if eqb k k' then Some v' else Map_get k rest
  end.

Definition Map_values {V} (m : list (jsstring * V)) : list V := map snd m.

(** Lines 40-42; [key] is the property that [item[key]] reads. *)
Definition getUniqueListBy {A} (arr : list A) (key : A -> jsstring) : list A :=
  Map_values (Map_new (map (fun item => (key item, item)) arr)).

(** Line 44. *)
Definition byDate (a b : Article.t) : Z :=
  (Article.dateForSEO b - Article.dateForSEO a)%Z.

(** [arr.sort(compare)]: a stable sort; [compare a b > 0] puts [a] after [b]. *)
Fixpoint sort_insert {A} (compare : A -> A -> Z) (x : A) (l : list A) : list A :=
  match l with
  | [] => [x]
  | y :: rest =>
      if (compare x y >? 0)%Z then y :: sort_insert compare x rest
      else x :: l
  end.

Definition sort {A} (compare : A -> A -> Z) (arr : list A) : list A :=
  fold_right (sort_insert compare) [] arr.

(** ** The host framework and the data layer

    [createPages.js] receives [graphql] and [createPage] from the host and
    loads [../data/data.query] and [../data/data.normalize].  What a query
    answers and what a normalizer makes of an edge is theirs to decide; each
    of these steps either yields a value or raises. *)

Inductive outcome (E A : Type) : Type :=
| Ok (a : A)
| Raise (e : E).
Arguments Ok {E A} a.
Arguments Raise {E A} e.

Definition and_then {E A B} (o : outcome E A) (k : A -> outcome E B)
  : outcome E B :=
  match o with
  | Ok a => k a
  | Raise e => Raise e
  end.

(** [arr.map(f)] for a callback that may raise: left to right, the first
    exception ends the call. *)
Fixpoint map_raising {E A B} (f : A -> outcome E B) (arr : list A)
  : outcome E (list B) :=
  match arr with
  | [] => Ok []
  | x :: rest =>
      and_then (f x) (fun y =>
      and_then (map_raising f rest) (fun ys => Ok (y :: ys)))
  end.

(** [arr.filter(f)] for a callback that may raise. *)
Fixpoint filter_raising {E A} (f : A -> outcome E bool) (arr : list A)
  : outcome E (list A) :=
  match arr with
  | [] => Ok []
  | x :: rest =>
      and_then (f x) (fun keep =>
      and_then (filter_raising f rest) (fun ys =>
      Ok (if keep then x :: ys else ys)))
  end.

(** The sources that are queried, and [query.<source>.authors],
    [query.<source>.articles]. *)
Inductive Source := Local | Contentful.

Inductive Query :=
| query_authors (source : Source)
| query_articles (source : Source).

Class Host := {
  Exn : Type;                (* what the host and the normalizers raise *)
  Response : Type;           (* what [graphql] resolves to *)
  Edge : Type;
  (* [response.data.authors.edges], [response.data.articles.edges] *)
  data_authors_edges : Response -> outcome Exn (list Edge);
  data_articles_edges : Response -> outcome Exn (list Edge);
  (* [normalize.<source>.authors], [normalize.<source>.articles] *)
  normalize_authors : Source -> Edge -> outcome Exn Author.t;
  normalize_articles : Source -> Edge -> outcome Exn Article.t
}.

(** The three templates of [templates]. *)
Inductive Template :=
| templates_articles
| templates_article
| templates_author.

(** The argument of [createPage] for an article post (lines 198-211). *)
Module Page.
Record context_t := {
  article : Article.t;
  authors : list Author.t;
  basePath : jsstring;
  slug : jsstring;
  id : jsstring;
  title : jsstring;
  mailchimp : jsstring;
  next : list Article.t
}.
Record t := {
  path : jsstring;
  component : Template;
  context : context_t
}.
End Page.

(** The argument of [createPaginatedPages] (lines 145-158 and 229-242);
    its [createPage] member is the host's and is left out. *)
Module Paginated.
Inductive context_t :=
| articles_context (authors : list Author.t) (basePath : jsstring)
                   (skip limit : Z)
| author_context (author : Author.t) (originalPath : jsstring)
                 (skip limit : Z).
Record t := {
  edges : list Article.t;
  pathPrefix : jsstring;
  pageLength : Z;
  pageTemplate : Template;
  buildPath : Z -> jsstring -> jsstring;
  context : context_t
}.
End Paginated.

Module ThemeOptions.
Record sources_t := {
  local : option bool;
  contentful : option bool
}.
Record t := {
  basePath : option jsstring;
  authorsPath : option jsstring;
  authorsPage : option bool;
  pageLength : option Z;
  sources : option sources_t;
  mailchimp : option jsstring
}.
End ThemeOptions.

(** A destructuring default: it applies when the property is [undefined]. *)
Definition default {A} (d : A) (o : option A) : A :=
  match o with
  | Some x => x
  | None => d
  end.

Module DataSources.
Record slot := {
  authors : list Author.t;
  articles : list Article.t
}.
Record t := {
  local : slot;
  contentful : slot;
  netlify : slot
}.
Definition empty_slot : slot := {| authors := []; articles := [] |}.
(** Lines 64-68. *)
Definition initial : t :=
  {| local := empty_slot; contentful := empty_slot; netlify := empty_slot |}.

Definition get (source : Source) (d : t) : slot :=
  match source with
  | Local => local d
  | Contentful => contentful d
  end.

Definition set (source : Source) (s : slot) (d : t) : t :=
  match source with
  | Local => {| local := s; contentful := contentful d; netlify := netlify d |}
  | Contentful => {| local := local d; contentful := s; netlify := netlify d |}
  end.
End DataSources.

Section WithHost.
Context {engine : Engine} {host : Host}.

(** What the pass throws: an exception of the host or of a normalizer, the
    [TypeError] of a method call on [undefined], or one of the two [Error]s
    it makes itself (lines 129-133 and 177-183; the second one's message
    has the article's title, its raw author field and the caught error). *)
Inductive thrown :=
| Foreign (e : Exn)
| TypeError
| NoAuthorOrPost
| AuthorNotFound (title : jsstring) (author : option jsstring) (error : thrown).

(** What the pass does to the outside, in order. *)
Inductive Event :=
| console_log (msg section : jsstring)      (* [log(msg, section)] *)
| console_error (error : thrown)
| createPage (page : Page.t)
| createPaginatedPages (pages : Paginated.t).

(** The state the pass threads: the [dataSources] object, which the [try]
    blocks mutate, and what has been done so far. *)
Record World := {
  dataSources : DataSources.t;
  events : list Event
}.

Definition M (A : Type) : Type := World -> outcome thrown A * World.

Definition ret {A} (a : A) : M A := fun w => (Ok a, w).

Definition bind {A B} (m : M A) (k : A -> M B) : M B :=
  fun w =>
    match m w with
    | (Ok a, w') => k a w'
    | (Raise e, w') => (Raise e, w')
    end.

Definition throw {A} (e : thrown) : M A := fun w => (Raise e, w).

(** [try { body } catch (error) { handler }]: what [body] did before it
    raised stays done. *)
Definition try_catch {A} (body : M A) (handler : thrown -> M A) : M A :=
  fun w =>
    match body w with
    | (Ok a, w') => (Ok a, w')
    | (Raise e, w') => handler e w'
    end.

Definition emit (e : Event) : M unit :=
  fun w => (Ok tt, {| dataSources := dataSources w; events := events w ++ [e] |}).

Definition read_dataSources : M DataSources.t :=
  fun w => (Ok (dataSources w), w).

Definition write_dataSources (d : DataSources.t) : M unit :=
  fun w => (Ok tt, {| dataSources := d; events := events w |}).

(** An outcome of the host or of a normalizer, within the pass. *)
Definition await {A} (o : outcome Exn A) : M A :=
  fun w =>
    match o with
    | Ok a => (Ok a, w)
    | Raise e => (Raise (Foreign e), w)
    end.

Definition lift {A} (o : outcome thrown A) : M A := fun w => (o, w).

Definition when (b : bool) (m : M unit) : M unit :=
  if b then m else ret tt.

(** [arr.forEach((item, index) => ...)], from [index] on. *)
Fixpoint forEach_from {A} (f : A -> nat -> M unit) (index : nat) (arr : list A)
  : M unit :=
  match arr with
  | [] => ret tt
  | item :: rest => bind (f item index) (fun _ => forEach_from f (S index) rest)
  end.

Definition forEach {A} (arr : list A) (f : A -> nat -> M unit) : M unit :=
  forEach_from f 0 arr.

End WithHost.

Arguments thrown {host}.
Arguments Event {host}.
Arguments World {host}.
Arguments M {host} A.

Declare Scope pass_scope.
Delimit Scope pass_scope with pass.
Notation "x <- m ;; k" := (bind m (fun x => k))
  (at level 61, m at next level, right associativity) : pass_scope.
Notation "m ;; k" := (bind m (fun _ => k))
  (at level 61, right associativity) : pass_scope.

(** ** The page-creation pass *)

Section Pass.
Context {engine : Engine} {host : Host}.
Open Scope pass_scope.

(** Lines 4-5. *)
Definition log (msg section : jsstring) : M unit :=
  emit (console_log msg section).

Definition source_label (source : Source) : jsstring :=
  match source with
  | Local => str "Local"
  | Contentful => str "Contentful"
  end.

(** The body of the [try] block of a source: lines 75-85 for [Local],
    lines 93-103 for [Contentful].  Both queries are awaited first; the
    authors are stored before the articles are mapped. *)
Definition query_source (graphql : Query -> outcome Exn Response)
           (source : Source) : M unit :=
  log (str "Querying Authors & Articles source:") (source_label source) ;;
  sourceAuthors <- await (graphql (query_authors source)) ;;
  sourceArticles <- await (graphql (query_articles source)) ;;
  authors <- await (and_then (data_authors_edges sourceAuthors)
                             (map_raising (normalize_authors source))) ;;
  d <- read_dataSources ;;
  write_dataSources
    (DataSources.set source
       {| DataSources.authors := authors;
          DataSources.articles := DataSources.articles (DataSources.get source d) |}
       d) ;;
  articles <- await (and_then (data_articles_edges sourceArticles)
                              (map_raising (normalize_articles source))) ;;
  d <- read_dataSources ;;
  write_dataSources
    (DataSources.set source
       {| DataSources.authors := DataSources.authors (DataSources.get source d);
          DataSources.articles := articles |}
       d).

(** Lines 73-89 and 91-107: the [try] with its [catch]. *)
Definition load_source (graphql : Query -> outcome Exn Response)
           (source : Source) : M unit :=
  try_catch (query_source graphql source)
            (fun error => emit (console_error error)).

(** Lines 110-114. *)
Definition combined_articles (d : DataSources.t) : list Article.t :=
  sort byDate
    (DataSources.articles (DataSources.local d)
     ++ DataSources.articles (DataSources.contentful d)
     ++ DataSources.articles (DataSources.netlify d)).

(** Lines 119-126. *)
Definition combined_authors (d : DataSources.t) : list Author.t :=
  getUniqueListBy
    (DataSources.authors (DataSources.local d)
     ++ DataSources.authors (DataSources.contentful d)
     ++ DataSources.authors (DataSources.netlify d))
    Author.name.

(** Lines 169-175.  [article.author.split] raises a [TypeError] when the
    article has no author field; the callback runs once per author. *)
Definition authorsThatWroteTheArticle (authors : list Author.t)
           (article : Article.t) : outcome thrown (list Author.t) :=
  filter_raising
    (fun author =>
       match Article.author article with
       | None => Raise TypeError
       | Some raw =>
           let allAuthors :=
             map (fun a => toLowerCase (trim a)) (split comma raw) in
           Ok (existsb (fun a => eqb a (toLowerCase (Author.name author)))
                       allAuthors)
       end)
    authors.

(** Lines 190-196.  [articles[0]] is read only when [next] has one element,
    and then [articles] is not empty (see [next_pad_defined]). *)
Definition next {A} (articles : list A) (index : nat) : list A :=
  let next := slice (index + 1) (index + 3) articles in
  let next :=
    if (length next =? 0)%nat then slice 0 2 articles else next in
  let next :=
    if (length next =? 1)%nat && negb (length articles =? 2)%nat
    then next ++ firstn 1 articles
    else next in
  if (length articles =? 1)%nat then [] else next.

(** Lines 165-212: the callback of [articles.forEach]. *)
Definition article_post (basePath mailchimp : jsstring)
           (authors : list Author.t) (articles : list Article.t)
           (article : Article.t) (index : nat) : M unit :=
  authorsThatWroteTheArticle <-
    try_catch (lift (authorsThatWroteTheArticle authors article))
      (fun error =>
         throw (AuthorNotFound (Article.title article)
                               (Article.author article) error)) ;;
  let next := next articles index in
  emit (createPage
    {| Page.path := Article.slug article;
       Page.component := templates_article;
       Page.context :=
         {| Page.article := article;
            Page.authors := authorsThatWroteTheArticle;
            Page.basePath := basePath;
            Page.slug := Article.slug article;
            Page.id := Article.id article;
            Page.title := Article.title article;
            Page.mailchimp := mailchimp;
            Page.next := next |} |}).

(** Lines 222-226. *)
Definition articlesTheAuthorHasWritten (articles : list Article.t)
           (author : Author.t) : outcome thrown (list Article.t) :=
  and_then
    (filter_raising
       (fun article =>
          match Article.author article with
          | None => Raise TypeError
          | Some raw =>
              Ok (includes (toLowerCase raw) (toLowerCase (Author.name author)))
          end)
       articles)
    (fun written => Ok (filter (fun article => negb (Article.secret article)) written)).

(** Lines 221-243: the callback of [authors.forEach]. *)
Definition author_page (authorsPath : jsstring) (pageLength : Z)
           (articles : list Article.t) (author : Author.t) (_ : nat) : M unit :=
  articlesTheAuthorHasWritten <- lift (articlesTheAuthorHasWritten articles author) ;;
  let path := slugify (Author.slug author) authorsPath in
  emit (createPaginatedPages
    {| Paginated.edges := articlesTheAuthorHasWritten;
       Paginated.pathPrefix := Author.slug author;
       Paginated.pageLength := pageLength;
       Paginated.pageTemplate := templates_author;
       Paginated.buildPath := buildPaginatedPath;
       Paginated.context :=
         Paginated.author_context author path pageLength pageLength |}).

(** Lines 48-245: [module.exports]. *)
Definition createPages (graphql : Query -> outcome Exn Response)
           (themeOptions : ThemeOptions.t) : M unit :=
  let basePath := default (str "/") (ThemeOptions.basePath themeOptions) in
  let authorsPath := default (str "/authors") (ThemeOptions.authorsPath themeOptions) in
  let authorsPage := default true (ThemeOptions.authorsPage themeOptions) in
  let pageLength := default 6%Z (ThemeOptions.pageLength themeOptions) in
  let sources :=
    default {| ThemeOptions.local := None; ThemeOptions.contentful := None |}
            (ThemeOptions.sources themeOptions) in
  let mailchimp := default [] (ThemeOptions.mailchimp themeOptions) in
  let local := default true (ThemeOptions.local sources) in
  let contentful := default false (ThemeOptions.contentful sources) in
  write_dataSources DataSources.initial ;;
  log (str "Config basePath") basePath ;;
  when authorsPage (log (str "Config authorsPath") authorsPath) ;;
  when local (load_source graphql Local) ;;
  when contentful (load_source graphql Contentful) ;;
  dataSources <- read_dataSources ;;
  let articles := combined_articles dataSources in
  let articlesThatArentSecret :=
    filter (fun article => negb (Article.secret article)) articles in
  let authors := combined_authors dataSources in
  if (length articles =? 0)%nat || (length authors =? 0)%nat
  then throw NoAuthorOrPost
  else
    log (str "Creating") (str "articles page") ;;
    emit (createPaginatedPages
      {| Paginated.edges := articlesThatArentSecret;
         Paginated.pathPrefix := basePath;
         Paginated.pageLength := pageLength;
         Paginated.pageTemplate := templates_articles;
         Paginated.buildPath := buildPaginatedPath;
         Paginated.context :=
           Paginated.articles_context authors basePath pageLength pageLength |}) ;;
    log (str "Creating") (str "article posts") ;;
    forEach articles (article_post basePath mailchimp authors articles) ;;
    when authorsPage
      (log (str "Creating") (str "authors page") ;;
       forEach authors (author_page authorsPath pageLength articles)).

(** The pass starts with nothing done. *)
Definition start : World :=
  {| dataSources := DataSources.initial; events := [] |}.

End Pass.

(** ** An engine and a host to run the pass on

    [Basic.engine] agrees with the JavaScript engine on strings of code
    units below U+0080: it lowercases A-Z, and such strings are their own
    NFD form.  [Basic.host] answers a query with a list of edges, each a
    normalized record already or a malformed one that the normalizer
    rejects. *)

Module Basic.

Definition lower (c : code_unit) : code_unit :=
  if ((65 <=? c) && (c <=? 90))%N then (c + 32)%N else c.

Definition engine : Engine :=
  {| toLowerCase := map lower; normalizeNFD := fun s => s |}.

Inductive exn := query_failed | malformed_edge.

Inductive edge :=
| author_edge (author : Author.t)
| article_edge (article : Article.t)
| bad_edge.

Definition host : Host :=
  {| Exn := exn;
     Response := list edge;
     Edge := edge;
     data_authors_edges := fun r => Ok r;
     data_articles_edges := fun r => Ok r;
     normalize_authors := fun _ e =>
       match e with author_edge a => Ok a | _ => Raise malformed_edge end;
     normalize_articles := fun _ e =>
       match e with article_edge a => Ok a | _ => Raise malformed_edge end |}.

Definition mkAuthor (name : String.string) : Author.t :=
  {| Author.name := str name; Author.slug := str "/authors/" ++ str name |}.
Arguments mkAuthor name%_string_scope.

Definition mkArticle (title author : String.string) (date : Z) (secret : bool)
  : Article.t :=
  {| Article.id := str title;
     Article.title := str title;
     Article.slug := str "/" ++ str title;
     Article.author := Some (str author);
     Article.dateForSEO := date;
     Article.secret := secret |}.
Arguments mkArticle (title author)%_string_scope date%_Z secret.

(** A host whose local source has the given authors and articles. *)
Definition graphql_of (authors : list Author.t) (articles : list Article.t)
  : Query -> outcome exn (list edge) :=
  fun q =>
    match q with
    | query_authors Local => Ok (map author_edge authors)
    | query_articles Local => Ok (map article_edge articles)
    | _ => Raise query_failed
    end.


Definition noOptions : ThemeOptions.t :=
  {| ThemeOptions.basePath := None;
     ThemeOptions.authorsPath := None;
     ThemeOptions.authorsPage := None;
     ThemeOptions.pageLength := None;
     ThemeOptions.sources := None;
     ThemeOptions.mailchimp := None |}.

End Basic.

(** ** The specification's reading of the operations *)

(** The article at index [k], if there is one. *)
Definition article_at {A} (articles : list A) (k : nat) : list A :=
  match nth_error articles k with
  | Some a => [a]
  | None => []
  end.

(** "Next articles" as the specification words it: the up-to-2 following
    articles; the first 2 if none follows; a single follower padded with the
    first article unless the list has 2 articles; none for a single
    article. *)
Definition next_spec {A} (articles : list A) (i : nat) : list A :=
  if (length articles =? 1)%nat then []
  else
    match article_at articles (i + 1) ++ article_at articles (i + 2) with
    | [] => article_at articles 0 ++ article_at articles 1
    | [only] =>
        if (length articles =? 2)%nat then [only]
        else only :: article_at articles 0
    | following => following
    end.

(** The maximal runs of a string with respect to a class of code units:
    each run is tagged with whether its code units are in the class. *)
Fixpoint runs (p : code_unit -> bool) (s : jsstring)
  : list (bool * jsstring) :=
  match s with
  | [] => []
  | c :: rest =>
      match runs p rest with
      | (b, run) :: more =>
          if Bool.eqb (p c) b then (b, c :: run) :: more
          else (p c, [c]) :: (b, run) :: more
      | [] => [(p c, [c])]
      end
  end.

(** Every maximal run of code units of the class [p] replaced by [by_]. *)
Definition replace_runs (p : code_unit -> bool) (by_ : jsstring)
           (s : jsstring) : jsstring :=
  concat (map (fun r : bool * jsstring => if fst r then by_ else snd r)
              (runs p s)).

(** Leading and trailing hyphens trimmed. *)
Definition trim_hyphens (s : jsstring) : jsstring :=
  dropWhileEnd is_hyphen (dropWhile is_hyphen s).

(** The code units of a literal, as a class. *)
Definition one_of (chars : String.string) (c : code_unit) : bool :=
  existsb (N.eqb c) (str chars).
Arguments one_of chars%_string_scope c.

(** The code units of a Unicode block, from its first to its last. *)
Definition in_block (first last c : code_unit) : bool :=
  ((first <=? c) && (c <=? last))%N.
Arguments in_block (first last c)%_N_scope.

(** The block Combining Diacritical Marks, U+0300 to U+036F. *)
Definition combining_diacritical_mark (c : code_unit) : bool :=
  in_block 0x0300 0x036F c.

(** The diacritical marks of Unicode: the blocks Combining Diacritical
    Marks (U+0300 to U+036F), Combining Diacritical Marks Extended (U+1AB0
    to U+1AFF), Combining Diacritical Marks Supplement (U+1DC0 to U+1DFF),
    Combining Diacritical Marks for Symbols (U+20D0 to U+20FF) and
    Combining Half Marks (U+FE20 to U+FE2F). *)
Definition diacritical_mark (c : code_unit) : bool :=
  in_block 0x0300 0x036F c || in_block 0x1AB0 0x1AFF c
  || in_block 0x1DC0 0x1DFF c || in_block 0x20D0 0x20FF c
  || in_block 0xFE20 0xFE2F c.

Section SlugSpec.
Context {engine : Engine}.

(** The transformation of the string, in the specification's words:
    lowercased; the marks stripped (from the decomposed form); every
    maximal run of characters outside a-z, 0-9 replaced by one hyphen; the
    hyphens of both ends trimmed.  [marks] says which marks are stripped. *)
Definition slug_name (marks : code_unit -> bool) (s : jsstring) : jsstring :=
  let lowered := toLowerCase s in
  let stripped := filter (fun c => negb (marks c)) (normalizeNFD lowered) in
  let hyphenated :=
    replace_runs
      (fun c => negb (one_of "abcdefghijklmnopqrstuvwxyz0123456789" c))
      (str "-") stripped in
  dropWhileEnd (one_of "-") (dropWhile (one_of "-") hyphenated).

(** The base path joined by a slash to the name, every run of slashes
    collapsed to one. *)
Definition slug_path (base name : jsstring) : jsstring :=
  replace_runs (one_of "/") (str "/") (base ++ str "/" ++ name).

(** The slug as the specification words it: the diacritical marks are
    stripped. *)
Definition slugify_as_claimed (str_ base : jsstring) : jsstring :=
  slug_path base (slug_name diacritical_mark str_).

(** The slug with the marks of U+0300 to U+036F stripped and no others. *)
Definition slugify_as_amended (str_ base : jsstring) : jsstring :=
  slug_path base (slug_name combining_diacritical_mark str_).

End SlugSpec.

(** The last element of a list, if any. *)
Definition last_of {A} (l : list A) : list A :=
  match rev l with
  | [] => []
  | x :: _ => [x]
  end.

(** The entry that [getUniqueListBy] makes of an item, and the step of
    [new Map] on an entry. *)
Definition Map_entry {A} (key : A -> jsstring) (item : A) : jsstring * A :=
  (key item, item).

Definition Map_put {A} (m : list (jsstring * A)) (kv : jsstring * A)
  : list (jsstring * A) :=
  Map_set (fst kv) (snd kv) m.

(** What replacing the runs of at least [least] code units does to a run. *)
Definition rewrite_run (least : nat) (by_ : jsstring) (r : bool * jsstring)
  : jsstring :=
  if fst r && (least <=? length (snd r))%nat then by_ else snd r.

(** Neighbouring runs have different tags. *)
Fixpoint alternating (rs : list (bool * jsstring)) : Prop :=
  match rs with
  | r1 :: ((r2 :: _) as rest) => fst r1 <> fst r2 /\ alternating rest
  | _ => True
  end.

(** No two hyphens in a row. *)
Fixpoint single_hyphens (s : jsstring) : bool :=
  match s with
  | c :: rest =>
      match rest with
      | d :: _ => negb (is_hyphen c && is_hyphen d)
      | [] => true
      end && single_hyphens rest
  | [] => true
  end.

Definition starts_with_hyphen (s : jsstring) : bool :=
  match s with
  | c :: _ => is_hyphen c
  | [] => false
  end.

(** The keys of a list, each once, in the order of their first occurrence. *)
Fixpoint first_occurrences (keys : list jsstring) : list jsstring :=
  match keys with
  | [] => []
  | k :: rest =>
      k :: filter (fun k' => negb (eqb k' k)) (first_occurrences rest)
  end.

(** Newest first: no article is dated after one that comes before it. *)
Definition newest_first : list Article.t -> Prop :=
  StronglySorted
    (fun a b => (Article.dateForSEO b <= Article.dateForSEO a)%Z).

(** No two code units of the class [q] in a row. *)
Fixpoint no_two_in_a_row (q : code_unit -> bool) (s : jsstring) : bool :=
  match s with
  | c :: rest =>
      match rest with
      | d :: _ => negb (q c && q d)
      | [] => true
      end && no_two_in_a_row q rest
  | [] => true
  end.

Definition starts_in (q : code_unit -> bool) (s : jsstring) : bool :=
  match s with
  | c :: _ => q c
  | [] => false
  end.

Fixpoint takeWhile {A} (p : A -> bool) (l : list A) : list A :=
  match l with
  | [] => []
  | x :: rest => if p x then x :: takeWhile p rest else []
  end.

(** The article has an author field. *)
Definition has_author (article : Article.t) : bool :=
  match Article.author article with
  | Some _ => true
  | None => false
  end.

(** Whose listing it is: [None] for the articles listing. *)
Definition listing_owner (l : Paginated.t) : option Author.t :=
  match Paginated.context l with
  | Paginated.articles_context _ _ _ _ => None
  | Paginated.author_context author _ _ _ => Some author
  end.

(** The source a query goes to, and whether the options turn a source on
    (lines 49-59: [local] defaults to [true], [contentful] to [false]). *)
Definition source_of (q : Query) : Source :=
  match q with
  | query_authors source => source
  | query_articles source => source
  end.

Definition enabled (themeOptions : ThemeOptions.t) (source : Source) : bool :=
  let sources :=
    default {| ThemeOptions.local := None; ThemeOptions.contentful := None |}
            (ThemeOptions.sources themeOptions) in
  match source with
  | Local => default true (ThemeOptions.local sources)
  | Contentful => default false (ThemeOptions.contentful sources)
  end.

(** The check of line 128. *)
Definition nothing_to_publish (articles : list Article.t)
           (authors : list Author.t) : bool :=
  (length articles =? 0)%nat || (length authors =? 0)%nat.

(** The first article without an author field, if there is one. *)
Definition first_without_author (articles : list Article.t)
  : option Article.t :=
  find (fun article => negb (has_author article)) articles.

(** *** The two stages of the pass

    [createPages] first loads and merges the sources (lines 48-107), then,
    past the check of lines 128-134, plans the pages (lines 144-244).  The
    stages are named here to state what each one does; [createPages_stages]
    shows that [createPages] is the one after the other. *)

Section Stages.
Context {engine : Engine} {host : Host}.
Open Scope pass_scope.

Definition load_all (graphql : Query -> outcome Exn Response)
           (themeOptions : ThemeOptions.t) : M unit :=
  let basePath := default (str "/") (ThemeOptions.basePath themeOptions) in
  let authorsPath := default (str "/authors") (ThemeOptions.authorsPath themeOptions) in
  let authorsPage := default true (ThemeOptions.authorsPage themeOptions) in
  let sources :=
    default {| ThemeOptions.local := None; ThemeOptions.contentful := None |}
            (ThemeOptions.sources themeOptions) in
  let local := default true (ThemeOptions.local sources) in
  let contentful := default false (ThemeOptions.contentful sources) in
  write_dataSources DataSources.initial ;;
  log (str "Config basePath") basePath ;;
  when authorsPage (log (str "Config authorsPath") authorsPath) ;;
  when local (load_source graphql Local) ;;
  when contentful (load_source graphql Contentful).

(** The [dataSources] object once the sources are loaded. *)
Definition aggregated (graphql : Query -> outcome Exn Response)
           (themeOptions : ThemeOptions.t) : DataSources.t :=
  dataSources (snd (load_all graphql themeOptions start)).

Definition plan_pages (themeOptions : ThemeOptions.t)
           (articles : list Article.t) (authors : list Author.t) : M unit :=
  let basePath := default (str "/") (ThemeOptions.basePath themeOptions) in
  let authorsPath := default (str "/authors") (ThemeOptions.authorsPath themeOptions) in
  let authorsPage := default true (ThemeOptions.authorsPage themeOptions) in
  let pageLength := default 6%Z (ThemeOptions.pageLength themeOptions) in
  let mailchimp := default [] (ThemeOptions.mailchimp themeOptions) in
  log (str "Creating") (str "articles page") ;;
  emit (createPaginatedPages
    {| Paginated.edges := filter (fun article => negb (Article.secret article)) articles;
       Paginated.pathPrefix := basePath;
       Paginated.pageLength := pageLength;
       Paginated.pageTemplate := templates_articles;
       Paginated.buildPath := buildPaginatedPath;
       Paginated.context :=
         Paginated.articles_context authors basePath pageLength pageLength |}) ;;
  log (str "Creating") (str "article posts") ;;
  forEach articles (article_post basePath mailchimp authors articles) ;;
  when authorsPage
    (log (str "Creating") (str "authors page") ;;
     forEach authors (author_page authorsPath pageLength articles)).

(** The pages and the paginated listings that a run has asked the host for. *)
Fixpoint pages (evs : list Event) : list Page.t :=
  match evs with
  | [] => []
  | createPage page :: rest => page :: pages rest
  | _ :: rest => pages rest
  end.

Fixpoint listings (evs : list Event) : list Paginated.t :=
  match evs with
  | [] => []
  | createPaginatedPages l :: rest => l :: listings rest
  | _ :: rest => listings rest
  end.

(** The listing of an author's page. *)
Definition listing_of (author : Author.t) (l : Paginated.t) : Prop :=
  Paginated.pageTemplate l = templates_author
  /\ exists path skip limit,
       Paginated.context l = Paginated.author_context author path skip limit.

(** The author's name occurs in the article's author field, case ignored. *)
Definition names_author (article : Article.t) (author : Author.t) : Prop :=
  exists raw,
    Article.author article = Some raw
    /\ includes (toLowerCase raw) (toLowerCase (Author.name author)) = true.

(** The post of an article: its path is the article's slug. *)
Definition post_of (authors : list Author.t) (article : Article.t)
           (page : Page.t) : Prop :=
  Page.path page = Article.slug article
  /\ Page.component page = templates_article
  /\ Page.article (Page.context page) = article
  /\ authorsThatWroteTheArticle authors article
     = Ok (Page.authors (Page.context page)).

(** The listing of an author, with the articles it is given. *)
Definition written_by (articles : list Article.t) (author : Author.t)
           (l : Paginated.t) : Prop :=
  listing_of author l
  /\ articlesTheAuthorHasWritten articles author = Ok (Paginated.edges l).

(** A step that returns normally and asks the host for no page. *)
Definition quiet (m : M unit) : Prop :=
  forall w,
    fst (m w) = Ok tt
    /\ pages (events (snd (m w))) = pages (events w)
    /\ listings (events (snd (m w))) = listings (events w).



End Stages.

(** ** Strings *)

Lemma eqb_refl (a : jsstring) : eqb a a = true.
Proof.
  induction a as [|x a IH]; simpl; [reflexivity|].
  now rewrite N.eqb_refl.
Qed.

Lemma eqb_eq (a b : jsstring) : eqb a b = true <-> a = b.
Proof.
  split; [|intros ->; apply eqb_refl].
  revert b; induction a as [|x a IH]; intros [|y b]; simpl; try discriminate; auto.
  intros H. apply andb_prop in H as [Hx Hab].
  apply N.eqb_eq in Hx. f_equal; auto.
Qed.

Lemma eqb_neq (a b : jsstring) : eqb a b = false <-> a <> b.
Proof.
  rewrite <- eqb_eq. destruct (eqb a b); split; congruence.
Qed.

Lemma eqb_sym (a b : jsstring) : eqb a b = eqb b a.
Proof.
  destruct (eqb a b) eqn:E.
  - apply eqb_eq in E. subst. symmetry. apply eqb_refl.
  - destruct (eqb b a) eqn:E'; [|reflexivity].
    apply eqb_eq in E'. subst. now rewrite eqb_refl in E.
Qed.

(** ** Pagination paths *)

Example Number_toString_12 : Number_toString 12 = str "12".
Proof. reflexivity. Qed.

(** C3: the paginated path is the base path for an index not above 1;
    above 1 it is the base path followed by [page/{n}] when the base path is
    ["/"] and by [/page/{n}] otherwise.  On the base path ["/"] that is
    ["/page/{n}"] above 1 and ["/"] at 1. *)
Theorem buildPaginatedPath_spec (n : Z) (b : jsstring) :
  buildPaginatedPath n b =
    (if (n >? 1)%Z then
       if eqb b (str "/") then b ++ str "page/" ++ Number_toString n
       else b ++ str "/page/" ++ Number_toString n
     else b)
  /\ buildPaginatedPath n (str "/") =
       (if (n >? 1)%Z then str "/page/" ++ Number_toString n else str "/")
  /\ buildPaginatedPath 1 (str "/") = str "/".
Proof.
  split; [|split].
  - unfold buildPaginatedPath.
    destruct (eqb b (str "/")), (n >? 1)%Z; reflexivity.
  - unfold buildPaginatedPath. rewrite eqb_refl.
    destruct (n >? 1)%Z; reflexivity.
  - reflexivity.
Qed.

(** ** Next articles *)

Lemma slice_as_articles {A} (articles : list A) (i : nat) :
  slice (i + 1) (i + 3) articles
  = article_at articles (i + 1) ++ article_at articles (i + 2).
Proof.
  unfold slice, article_at.
  replace (i + 3 - (i + 1)) with 2 by lia.
  replace (i + 2) with (S (i + 1)) by lia.
  generalize (i + 1) as k. intros k. revert articles.
  induction k as [|k IH]; intros [|a l]; simpl; try reflexivity.
  - destruct l as [|b l]; reflexivity.
  - apply IH.
Qed.

Lemma slice_first_two {A} (articles : list A) :
  slice 0 2 articles = article_at articles 0 ++ article_at articles 1.
Proof.
  destruct articles as [|a [|b l]]; reflexivity.
Qed.

(** The read of [articles[0]] in [next] is never out of range. *)
Lemma next_pad_defined {A} (articles : list A) (index : nat) :
  let following := slice (index + 1) (index + 3) articles in
  let wrapped :=
    if (length following =? 0)%nat then slice 0 2 articles else following in
  length wrapped = 1 -> length (firstn 1 articles) = 1.
Proof.
  destruct articles as [|a l]; simpl; [|reflexivity].
  unfold slice. rewrite skipn_nil, firstn_nil. simpl. discriminate.
Qed.

(** C2: [next] is the specification's selection, at every index of every
    list; for [[A; B; C; D]] the suggestion for [C] is [[D; A]], and for two
    articles the first one's suggestion is the second alone. *)
Theorem next_spec_correct :
  (forall (A : Type) (articles : list A) (i : nat),
      next articles i = next_spec articles i)
  /\ (forall (A : Type) (a b c d : A), next [a; b; c; d] 2 = [d; a])
  /\ (forall (A : Type) (first second : A), next [first; second] 0 = [second]).
Proof.
  split; [|split; reflexivity].
  intros A articles i. unfold next, next_spec.
  rewrite slice_as_articles, slice_first_two.
  destruct (length articles =? 1)%nat eqn:One.
  - reflexivity.
  - destruct (article_at articles (i + 1) ++ article_at articles (i + 2))
      as [|x [|y following]] eqn:F; simpl.
    + apply Nat.eqb_neq in One.
      destruct articles as [|a [|b l]]; simpl in *; try reflexivity.
      congruence.
    + destruct (length articles =? 2)%nat; simpl; [reflexivity|].
      destruct articles; reflexivity.
    + reflexivity.
Qed.

(** C9: with two articles, the suggestion for the second one is the whole
    list, itself included. *)
Theorem next_of_second_of_two (A : Type) (first second : A) :
  next [first; second] 1 = [first; second].
Proof. reflexivity. Qed.

(** ** Unique authors *)

Section Unique.
Variables (A : Type) (key : A -> jsstring).

Lemma Map_get_set_same (k : jsstring) (v : A) m :
  Map_get k (Map_set k v m) = Some v.
Proof.
  induction m as [|[k' v'] m IH]; simpl.
  - now rewrite eqb_refl.
  - destruct (eqb k k') eqn:E; simpl; rewrite ?eqb_refl, ?E; auto.
Qed.

Lemma Map_get_set_other (k k0 : jsstring) (v : A) m :
  eqb k k0 = false -> Map_get k0 (Map_set k v m) = Map_get k0 m.
Proof.
  intros Hk. induction m as [|[k' v'] m IH]; simpl.
  - now rewrite eqb_sym, Hk.
  - destruct (eqb k k') eqn:E; simpl.
    + apply eqb_eq in E. subst k'. now rewrite eqb_sym, Hk.
    + now rewrite IH.
Qed.

Lemma Map_set_keys (k k0 : jsstring) (v : A) m :
  In k0 (map fst (Map_set k v m)) <-> k0 = k \/ In k0 (map fst m).
Proof.
  induction m as [|[k' v'] m IH]; simpl.
  - intuition.
  - destruct (eqb k k') eqn:E; simpl.
    + apply eqb_eq in E. subst k'. intuition.
    + rewrite IH. intuition.
Qed.

Lemma Map_set_NoDup (k : jsstring) (v : A) m :
  NoDup (map fst m) -> NoDup (map fst (Map_set k v m)).
Proof.
  induction m as [|[k' v'] m IH]; simpl; intros ND.
  - constructor; [intros []|constructor].
  - inversion ND as [|? ? Hnotin ND']; subst.
    destruct (eqb k k') eqn:E; simpl.
    + apply eqb_eq in E. subst k'. now constructor.
    + constructor; [|auto].
      rewrite Map_set_keys. intros [->|Hin]; [|contradiction].
      now rewrite eqb_refl in E.
Qed.

Lemma Map_set_keyed (k : jsstring) (v : A) m :
  key v = k ->
  (forall kv, In kv m -> key (snd kv) = fst kv) ->
  forall kv, In kv (Map_set k v m) -> key (snd kv) = fst kv.
Proof.
  intros Hv. induction m as [|[k' v'] m IH]; simpl; intros Hm kv Hin.
  - destruct Hin as [<-|[]]. exact Hv.
  - destruct (eqb k k'); simpl in Hin; destruct Hin as [<-|Hin]; auto;
      try (apply (Hm (k', v')); now left).
Qed.

Lemma Map_new_invariant (arr : list A) m :
  NoDup (map fst m) ->
  (forall kv, In kv m -> key (snd kv) = fst kv) ->
  let m' := fold_left (@Map_put A) (map (Map_entry key) arr) m in
  NoDup (map fst m') /\ (forall kv, In kv m' -> key (snd kv) = fst kv).
Proof.
  revert m. induction arr as [|a arr IH]; simpl; intros m ND Hm; [auto|].
  apply IH.
  - now apply Map_set_NoDup.
  - now apply Map_set_keyed.
Qed.

Lemma last_of_cons (B : Type) (x : B) (l : list B) :
  last_of (x :: l) = match last_of l with [] => [x] | found => found end.
Proof.
  unfold last_of. simpl. destruct (rev l); reflexivity.
Qed.

Lemma Map_new_get (k : jsstring) (arr : list A) m :
  Map_get k (fold_left (@Map_put A) (map (Map_entry key) arr) m)
  = match last_of (filter (fun a => eqb (key a) k) arr) with
    | a :: _ => Some a
    | [] => Map_get k m
    end.
Proof.
  revert m. induction arr as [|a arr IH]; intros m; simpl; [reflexivity|].
  rewrite IH. unfold Map_put, Map_entry. cbn [fst snd].
  destruct (eqb (key a) k) eqn:E.
  - rewrite last_of_cons.
    destruct (last_of (filter (fun a0 => eqb (key a0) k) arr)); [|reflexivity].
    apply eqb_eq in E. subst k. apply Map_get_set_same.
  - destruct (last_of (filter (fun a0 => eqb (key a0) k) arr)); [|reflexivity].
    now apply Map_get_set_other.
Qed.

Lemma Map_get_absent (k : jsstring) (m : list (jsstring * A)) :
  ~ In k (map fst m) -> Map_get k m = None.
Proof.
  induction m as [|[k' v'] m IH]; simpl; intros Hk; [reflexivity|].
  destruct (eqb k k') eqn:E.
  - apply eqb_eq in E. subst. tauto.
  - apply IH. tauto.
Qed.

Lemma Map_values_with_key (k : jsstring) (m : list (jsstring * A)) :
  NoDup (map fst m) ->
  (forall kv, In kv m -> key (snd kv) = fst kv) ->
  filter (fun a => eqb (key a) k) (Map_values m)
  = match Map_get k m with Some v => [v] | None => [] end.
Proof.
  induction m as [|[k' v'] m IH]; simpl; intros ND Hm; [reflexivity|].
  inversion ND as [|? ? Hnotin ND']; subst.
  assert (Hk : key v' = k') by (apply (Hm (k', v')); now left).
  rewrite Hk, (eqb_sym k' k).
  destruct (eqb k k') eqn:E.
  - apply eqb_eq in E. subst k.
    fold (Map_values m). rewrite IH by auto.
    now rewrite Map_get_absent.
  - apply IH; auto.
Qed.

Lemma Map_values_keys (m : list (jsstring * A)) :
  (forall kv, In kv m -> key (snd kv) = fst kv) ->
  map key (Map_values m) = map fst m.
Proof.
  induction m as [|kv m IH]; simpl; intros Hm; [reflexivity|].
  rewrite Hm by now left. f_equal. apply IH. auto.
Qed.

(** [getUniqueListBy] keeps one item per key, the last one of the array. *)
Lemma getUniqueListBy_spec (arr : list A) :
  NoDup (map key (getUniqueListBy arr key))
  /\ forall k,
       filter (fun a => eqb (key a) k) (getUniqueListBy arr key)
       = last_of (filter (fun a => eqb (key a) k) arr).
Proof.
  unfold getUniqueListBy, Map_new.
  destruct (@Map_new_invariant arr []) as [ND Hm];
    [constructor | intros ? [] |].
  change (fun item => (key item, item)) with (Map_entry key).
  change (fun m kv => Map_set (fst kv) (snd kv) m) with (@Map_put A).
  split.
  - now rewrite Map_values_keys.
  - intros k. rewrite Map_values_with_key by assumption.
    rewrite Map_new_get. simpl.
    generalize (filter (fun a => eqb (key a) k) arr). intros l.
    unfold last_of. destruct (rev l); reflexivity.
Qed.

End Unique.

(** C4: the merged author list has no two authors of the same name, and of
    the authors of one name it keeps the last one of the concatenated
    source lists. *)
Theorem combined_authors_last_write_wins (d : DataSources.t) :
  let merged :=
    DataSources.authors (DataSources.local d)
    ++ DataSources.authors (DataSources.contentful d)
    ++ DataSources.authors (DataSources.netlify d) in
  NoDup (map Author.name (combined_authors d))
  /\ forall name,
       filter (fun a => eqb (Author.name a) name) (combined_authors d)
       = last_of (filter (fun a => eqb (Author.name a) name) merged).
Proof.
  apply getUniqueListBy_spec.
Qed.

(** ** Sorting *)

Lemma sort_insert_Permutation {A} (compare : A -> A -> Z) (x : A) (l : list A) :
  Permutation (x :: l) (sort_insert compare x l).
Proof.
  induction l as [|y l IH]; simpl; [reflexivity|].
  destruct (compare x y >? 0)%Z; [|reflexivity].
  rewrite perm_swap. now constructor.
Qed.

Lemma sort_Permutation {A} (compare : A -> A -> Z) (arr : list A) :
  Permutation arr (sort compare arr).
Proof.
  induction arr as [|x arr IH]; simpl; [constructor|].
  rewrite <- sort_insert_Permutation. now constructor.
Qed.

(** The combined list has the articles of the three slots, each once. *)
Lemma combined_articles_Permutation (d : DataSources.t) :
  Permutation
    (DataSources.articles (DataSources.local d)
     ++ DataSources.articles (DataSources.contentful d)
     ++ DataSources.articles (DataSources.netlify d))
    (combined_articles d).
Proof. apply sort_Permutation. Qed.

(** ** Regular-expression replacement and maximal runs *)

Section Replace.
Variables (m : matcher) (by_ : jsstring).

(** Passing over the rest of a match. *)
Lemma replace_from_skip (k : nat) (s : jsstring) :
  k <= length s ->
  replace_from m by_ k false s = replace_from m by_ 0 false (skipn k s).
Proof.
  revert s. induction k as [|k IH]; intros s Hk; [reflexivity|].
  destruct s as [|c s]; simpl in *; [lia|].
  apply IH. lia.
Qed.

End Replace.

Section Runs.
Variable p : code_unit -> bool.

Lemma span_len_le (s : jsstring) : span_len p s <= length s.
Proof.
  induction s as [|c s IH]; simpl; [lia|].
  destruct (p c); simpl; lia.
Qed.

Lemma span_len_skipn (s : jsstring) :
  span_len p (skipn (span_len p s) s) = 0.
Proof.
  induction s as [|c s IH]; simpl; [reflexivity|].
  destruct (p c) eqn:Hc; simpl; [exact IH|now rewrite Hc].
Qed.

Lemma runs_head (c : code_unit) (s : jsstring) :
  exists run more, runs p (c :: s) = (p c, run) :: more.
Proof.
  simpl. destruct (runs p s) as [|[b run] more]; [eauto|].
  destruct (Bool.eqb (p c) b) eqn:E; [|eauto].
  apply Bool.eqb_prop in E. rewrite E. eauto.
Qed.

(** A string that starts in the class starts with the run of its longest
    prefix in the class. *)
Lemma runs_span (c : code_unit) (s : jsstring) :
  p c = true ->
  let n := span_len p (c :: s) in
  runs p (c :: s) = (true, firstn n (c :: s)) :: runs p (skipn n (c :: s)).
Proof.
  revert c. induction s as [|d s IH]; intros c Hc.
  - simpl. now rewrite Hc.
  - destruct (p d) eqn:Hd.
    + specialize (IH d Hd). cbv zeta in IH.
      change (runs p (c :: d :: s))
        with (match runs p (d :: s) with
              | (b, run) :: more =>
                  if Bool.eqb (p c) b then (b, c :: run) :: more
                  else (p c, [c]) :: (b, run) :: more
              | [] => [(p c, [c])]
              end).
      rewrite IH. rewrite Hc. simpl Bool.eqb. cbv iota.
      simpl span_len. rewrite Hc, Hd. reflexivity.
    + destruct (runs_head d s) as (run & more & Hruns).
      cbv zeta.
      replace (span_len p (c :: d :: s)) with 1
        by (simpl; now rewrite Hc, Hd).
      change (firstn 1 (c :: d :: s)) with [c].
      change (skipn 1 (c :: d :: s)) with (d :: s).
      change (runs p (c :: d :: s))
        with (match runs p (d :: s) with
              | (b, run) :: more =>
                  if Bool.eqb (p c) b then (b, c :: run) :: more
                  else (p c, [c]) :: (b, run) :: more
              | [] => [(p c, [c])]
              end).
      rewrite Hruns, Hc, Hd. reflexivity.
Qed.

(** The runs are a partition of the string into non-empty pieces, each
    within the class or outside it as its tag says. *)
Lemma runs_concat (s : jsstring) : concat (map snd (runs p s)) = s.
Proof.
  induction s as [|c s IH]; simpl; [reflexivity|].
  destruct (runs p s) as [|[b run] more]; simpl in *; [now subst|].
  destruct (Bool.eqb (p c) b); simpl; now rewrite IH.
Qed.

Lemma runs_wf (s : jsstring) (b : bool) (run : jsstring) :
  In (b, run) (runs p s) ->
  run <> [] /\ Forall (fun c => p c = b) run.
Proof.
  revert b run. induction s as [|c s IH]; simpl; intros b run Hin; [tauto|].
  destruct (runs p s) as [|[b' run'] more].
  - destruct Hin as [E|[]]. inversion E; subst.
    split; [discriminate|]. now repeat constructor.
  - destruct (Bool.eqb (p c) b') eqn:E.
    + apply Bool.eqb_prop in E.
      destruct Hin as [E'|Hin].
      * inversion E'; subst. split; [discriminate|].
        constructor; [reflexivity|]. apply IH. now left.
      * apply IH. now right.
    + destruct Hin as [E'|Hin].
      * inversion E'; subst. split; [discriminate|]. now repeat constructor.
      * apply IH. exact Hin.
Qed.

(** Neighbouring runs have different tags: the runs are maximal. *)
Lemma runs_alternating (s : jsstring) : alternating (runs p s).
Proof.
  induction s as [|c s IH]; simpl; [exact I|].
  destruct (runs p s) as [|[b run] more] eqn:R; [exact I|].
  destruct (Bool.eqb (p c) b) eqn:E.
  - destruct more; [exact I|]. simpl in *. exact IH.
  - simpl. split; [|exact IH].
    intros H. rewrite H, Bool.eqb_reflx in E. discriminate.
Qed.

Variables (least : nat) (by_ : jsstring).
Hypothesis least_pos : 1 <= least.

Lemma render_outside (c : code_unit) (s : jsstring) :
  p c = false ->
  concat (map (rewrite_run least by_) (runs p (c :: s))) = c :: concat (map (rewrite_run least by_) (runs p s)).
Proof.
  intros Hc. simpl. destruct (runs p s) as [|[b run] more]; simpl.
  - now rewrite Hc.
  - rewrite Hc. destruct b; simpl; unfold rewrite_run; simpl; reflexivity.
Qed.

Lemma render_short (s : jsstring) :
  span_len p s < least ->
  concat (map (rewrite_run least by_) (runs p s))
  = firstn (span_len p s) s
    ++ concat (map (rewrite_run least by_) (runs p (skipn (span_len p s) s))).
Proof.
  intros Hn. destruct s as [|c s]; [reflexivity|].
  destruct (p c) eqn:Hc.
  - pose proof (runs_span s Hc) as R. cbv zeta in R.
    pose proof (span_len_le (c :: s)) as Hle.
    remember (span_len p (c :: s)) as n eqn:Hn'.
    rewrite R. simpl map. simpl concat.
    f_equal. unfold rewrite_run; simpl fst; simpl snd.
    rewrite firstn_length_le by exact Hle.
    apply Nat.leb_gt in Hn. now rewrite Hn.
  - simpl span_len. rewrite Hc. reflexivity.
Qed.

(** Replacing the matches of "[least] or more of the class" rewrites the
    runs of the class that are long enough. *)
Lemma replace_match_run (s : jsstring) (at_start : bool) :
  replace_from (match_run least p) by_ 0 at_start s
  = concat (map (rewrite_run least by_) (runs p s)).
Proof.
  remember (length s) as len eqn:Hlen.
  revert s at_start Hlen.
  induction len as [len IH] using lt_wf_ind. intros s at_start Hlen.
  destruct s as [|c s].
  - simpl. unfold match_run. simpl.
    now replace (least <=? 0) with false by (symmetry; apply Nat.leb_gt; lia).
  - destruct (p c) eqn:Hc.
    + pose proof (span_len_le (c :: s)) as Hle.
      assert (Hn : span_len p (c :: s) = S (span_len p s))
        by (simpl; now rewrite Hc).
      change (replace_from (match_run least p) by_ 0 at_start (c :: s))
        with (match match_run least p at_start (c :: s) with
              | Some (S k) => by_ ++ replace_from (match_run least p) by_ k false s
              | Some O => by_ ++ c :: replace_from (match_run least p) by_ 0 false s
              | None => c :: replace_from (match_run least p) by_ 0 false s
              end).
      unfold match_run at 1. cbv zeta.
      pose proof (runs_span s Hc) as R. cbv zeta in R.
      rewrite Hn in *. rewrite R. clear R.
      assert (Hfl : length (firstn (span_len p s) s) = span_len p s)
        by (apply firstn_length_le, span_len_le).
      simpl map. simpl concat.
      unfold rewrite_run at 1; simpl fst; simpl snd.
      simpl length. rewrite Hfl. simpl andb.
      destruct (least <=? S (span_len p s)) eqn:Long.
      * f_equal. rewrite replace_from_skip by apply span_len_le.
        eapply IH; [|reflexivity].
        subst len. simpl. rewrite length_skipn. lia.
      * apply Nat.leb_gt in Long.
        simpl app. f_equal.
        erewrite IH; [|subst len; simpl; constructor|reflexivity].
        apply render_short. lia.
    + change (replace_from (match_run least p) by_ 0 at_start (c :: s))
        with (match match_run least p at_start (c :: s) with
              | Some (S k) => by_ ++ replace_from (match_run least p) by_ k false s
              | Some O => by_ ++ c :: replace_from (match_run least p) by_ 0 false s
              | None => c :: replace_from (match_run least p) by_ 0 false s
              end).
      unfold match_run at 1. simpl span_len. rewrite Hc. cbv zeta.
      replace (least <=? 0) with false by (symmetry; apply Nat.leb_gt; lia).
      rewrite render_outside by exact Hc. f_equal.
      eapply IH; [|reflexivity]. subst len. simpl. lia.
Qed.

End Runs.

(** ** Slugs *)

Lemma replace_match_class (p : code_unit -> bool) (s : jsstring) (at_start : bool) :
  replace_from (match_class p) [] 0 at_start s
  = filter (fun c => negb (p c)) s.
Proof.
  revert at_start. induction s as [|c s IH]; intros at_start; [reflexivity|].
  simpl. destruct (p c); simpl; now rewrite IH.
Qed.

(** [/[p]+/g]: every maximal run of the class is replaced. *)
Lemma replace_plus (p : code_unit -> bool) (by_ s : jsstring) (at_start : bool) :
  replace_from (match_run 1 p) by_ 0 at_start s = replace_runs p by_ s.
Proof.
  rewrite replace_match_run by lia. unfold replace_runs. f_equal.
  apply map_ext_in. intros [b run] Hin. apply runs_wf in Hin as [Hne _].
  unfold rewrite_run.
  destruct run; [congruence|]. simpl. now rewrite andb_true_r.
Qed.

(** [/\/\/+/g]: a run of one slash is a single slash already. *)
Lemma replace_slashes (s : jsstring) :
  replace (match_run 2 is_slash) (str "/") s = replace_runs is_slash (str "/") s.
Proof.
  unfold replace. rewrite replace_match_run by lia. unfold replace_runs.
  f_equal. apply map_ext_in. intros [b run] Hin.
  apply runs_wf in Hin as [Hne Hall]. unfold rewrite_run.
  destruct b; [|reflexivity].
  destruct run as [|c [|d run]]; [congruence| |reflexivity].
  simpl. inversion Hall as [|? ? Hc _]; subst.
  apply N.eqb_eq in Hc. now subst c.
Qed.

Lemma dropWhile_snoc {A} (p : A -> bool) (l : list A) (x : A) :
  dropWhile p (l ++ [x])
  = match dropWhile p l with
    | [] => if p x then [] else [x]
    | kept => kept ++ [x]
    end.
Proof.
  induction l as [|y l IH]; simpl; [reflexivity|].
  destruct (p y); [exact IH|reflexivity].
Qed.

Lemma dropWhileEnd_cons {A} (p : A -> bool) (x : A) (l : list A) :
  dropWhileEnd p (x :: l)
  = match dropWhileEnd p l with
    | [] => if p x then [] else [x]
    | kept => x :: kept
    end.
Proof.
  unfold dropWhileEnd. simpl rev. rewrite dropWhile_snoc.
  destruct (dropWhile p (rev l)) as [|y kept] eqn:E.
  - simpl. destruct (p x); reflexivity.
  - rewrite rev_app_distr. simpl.
    destruct (rev kept ++ [y]) eqn:E'; [|reflexivity].
    now destruct (rev kept).
Qed.

Lemma dropWhileEnd_nil_head {A} (p : A -> bool) (x : A) (l : list A) :
  dropWhileEnd p (x :: l) = [] -> p x = true.
Proof.
  rewrite dropWhileEnd_cons.
  destruct (dropWhileEnd p l); [|discriminate].
  now destruct (p x).
Qed.

(** [/(^-|-$)+/g] away from the start of the subject takes a final hyphen. *)
Lemma replace_edge_inner (s : jsstring) :
  single_hyphens s = true ->
  replace_from match_edge_hyphens [] 0 false s = dropWhileEnd is_hyphen s.
Proof.
  induction s as [|c s IH]; intros Hs; [reflexivity|].
  destruct s as [|d s].
  - unfold match_edge_hyphens, dropWhileEnd. simpl.
    destruct (is_hyphen c); reflexivity.
  - change (single_hyphens (c :: d :: s))
      with (negb (is_hyphen c && is_hyphen d) && single_hyphens (d :: s)) in Hs.
    apply andb_prop in Hs as [Hcd Hs].
    specialize (IH Hs).
    change (replace_from match_edge_hyphens [] 0 false (c :: d :: s))
      with (match match_edge_hyphens false (c :: d :: s) with
            | Some (S k) => [] ++ replace_from match_edge_hyphens [] k false (d :: s)
            | Some O => [] ++ c :: replace_from match_edge_hyphens [] 0 false (d :: s)
            | None => c :: replace_from match_edge_hyphens [] 0 false (d :: s)
            end).
    unfold match_edge_hyphens at 1. simpl edge_hyphens.
    rewrite andb_false_r. rewrite IH.
    rewrite (dropWhileEnd_cons is_hyphen c (d :: s)).
    destruct (dropWhileEnd is_hyphen (d :: s)) eqn:E; [|reflexivity].
    apply dropWhileEnd_nil_head in E. rewrite E, andb_true_r in Hcd.
    apply negb_true_iff in Hcd. now rewrite Hcd.
Qed.

(** On a string without two hyphens in a row, [/(^-|-$)+/g] trims the
    hyphens of both ends. *)
Lemma replace_edge_hyphens (s : jsstring) :
  single_hyphens s = true ->
  replace match_edge_hyphens [] s = trim_hyphens s.
Proof.
  intros Hs. unfold replace, trim_hyphens.
  destruct s as [|c s]; [reflexivity|].
  change (replace_from match_edge_hyphens [] 0 true (c :: s))
    with (match match_edge_hyphens true (c :: s) with
          | Some (S k) => [] ++ replace_from match_edge_hyphens [] k false s
          | Some O => [] ++ c :: replace_from match_edge_hyphens [] 0 false s
          | None => c :: replace_from match_edge_hyphens [] 0 false s
          end).
  assert (Hs' : single_hyphens s = true).
  { simpl in Hs. apply andb_prop in Hs. tauto. }
  unfold match_edge_hyphens at 1. simpl edge_hyphens. simpl dropWhile.
  destruct (is_hyphen c) eqn:Hc; simpl andb; cbv iota.
  - destruct s as [|d s]; [reflexivity|].
    simpl in Hs. rewrite Hc in Hs. simpl in Hs.
    apply andb_prop in Hs as [Hd _]. apply negb_true_iff in Hd.
    simpl edge_hyphens. rewrite Hd. simpl andb. cbv iota.
    simpl dropWhile. rewrite Hd.
    now apply replace_edge_inner.
  - rewrite replace_edge_inner by exact Hs'.
    rewrite dropWhileEnd_cons, Hc.
    destruct (dropWhileEnd is_hyphen s); reflexivity.
Qed.

Lemma a_z_0_9_not_hyphen (c : code_unit) :
  is_a_z_0_9 c = true -> is_hyphen c = false.
Proof.
  unfold is_a_z_0_9, is_hyphen, hyphen. intros H.
  apply N.eqb_neq. intros ->. discriminate.
Qed.

(** After [/[^a-z0-9]+/g] has put one hyphen for each run, no two hyphens
    are in a row, and the result starts with a hyphen only if the subject
    starts outside [[a-z0-9]]. *)
Lemma hyphenated_single (s : jsstring) :
  let out := replace_runs (fun c => negb (is_a_z_0_9 c)) (str "-") s in
  single_hyphens out = true
  /\ (span_len (fun c => negb (is_a_z_0_9 c)) s = 0 ->
      starts_with_hyphen out = false).
Proof.
  cbv zeta. set (p := fun c => negb (is_a_z_0_9 c)).
  remember (length s) as len eqn:Hlen. revert s Hlen.
  induction len as [len IH] using lt_wf_ind. intros s Hlen.
  destruct s as [|c s]; [split; reflexivity|].
  assert (Hout : replace_runs p (str "-") (c :: s)
                 = if p c
                   then hyphen :: replace_runs p (str "-") (skipn (span_len p s) s)
                   else c :: replace_runs p (str "-") s).
  { rewrite <- (replace_plus p (str "-") (c :: s) false).
    change (replace_from (match_run 1 p) (str "-") 0 false (c :: s))
      with (match match_run 1 p false (c :: s) with
            | Some (S k) => str "-" ++ replace_from (match_run 1 p) (str "-") k false s
            | Some O => str "-" ++ c :: replace_from (match_run 1 p) (str "-") 0 false s
            | None => c :: replace_from (match_run 1 p) (str "-") 0 false s
            end).
    unfold match_run at 1. simpl span_len.
    destruct (p c); cbv zeta; simpl Nat.leb; cbv iota.
    - rewrite replace_from_skip by apply span_len_le.
      now rewrite replace_plus.
    - now rewrite replace_plus. }
  rewrite Hout. clear Hout.
  destruct (p c) eqn:Hc.
  - destruct (IH (length (skipn (span_len p s) s))) with (s := skipn (span_len p s) s)
      as [Hsingle Hstart]; [subst len; simpl; rewrite length_skipn; lia|reflexivity|].
    specialize (Hstart (span_len_skipn p s)).
    split; [|simpl; rewrite Hc; discriminate].
    destruct (replace_runs p (str "-") (skipn (span_len p s) s)) as [|d out];
      [reflexivity|].
    simpl in Hstart.
    change (single_hyphens (hyphen :: d :: out))
      with (negb (is_hyphen hyphen && is_hyphen d) && single_hyphens (d :: out)).
    now rewrite Hstart, Hsingle, andb_false_r.
  - destruct (IH (length s)) with (s := s) as [Hsingle _];
      [subst len; simpl; lia|reflexivity|].
    assert (Hh : is_hyphen c = false).
    { apply a_z_0_9_not_hyphen. unfold p in Hc. now apply negb_false_iff in Hc. }
    split; [|intros _; exact Hh].
    destruct (replace_runs p (str "-") s) as [|d out]; [simpl; now rewrite ?Hh|].
    change (single_hyphens (c :: d :: out))
      with (negb (is_hyphen c && is_hyphen d) && single_hyphens (d :: out)).
    now rewrite Hh, Hsingle.
Qed.

Lemma runs_ext (p p' : code_unit -> bool) (s : jsstring) :
  (forall c, p c = p' c) -> runs p s = runs p' s.
Proof.
  intros Hp. induction s as [|c s IH]; simpl; [reflexivity|].
  now rewrite IH, Hp.
Qed.

Lemma replace_runs_ext (p p' : code_unit -> bool) (by_ s : jsstring) :
  (forall c, p c = p' c) -> replace_runs p by_ s = replace_runs p' by_ s.
Proof.
  intros Hp. unfold replace_runs. now rewrite (@runs_ext p p' s Hp).
Qed.

Lemma dropWhile_ext {B} (q q' : B -> bool) (l : list B) :
  (forall x, q x = q' x) -> dropWhile q l = dropWhile q' l.
Proof.
  intros Hq. induction l as [|x l IH]; simpl; [reflexivity|].
  now rewrite IH, Hq.
Qed.

(** The classes of the regular expressions are the classes that the
    specification's words name. *)
Lemma one_of_hyphen (c : code_unit) : one_of "-" c = is_hyphen c.
Proof. unfold one_of. simpl. apply orb_false_r. Qed.

Lemma one_of_slash (c : code_unit) : one_of "/" c = is_slash c.
Proof. unfold one_of. simpl. apply orb_false_r. Qed.

Lemma combining_diacritical_mark_class (c : code_unit) :
  combining_diacritical_mark c = is_combining_mark c.
Proof. reflexivity. Qed.

Lemma below_listed (c : code_unit) (bound : nat) :
  (c < N.of_nat bound)%N -> In c (map N.of_nat (seq 0 bound)).
Proof.
  intros Hc. apply in_map_iff. exists (N.to_nat c).
  split; [apply N2Nat.id|]. apply in_seq. lia.
Qed.

Lemma letter_or_digit_class (c : code_unit) :
  one_of "abcdefghijklmnopqrstuvwxyz0123456789" c = is_a_z_0_9 c.
Proof.
  destruct (N.ltb_spec c 123) as [Hlow|Hhigh].
  - assert (Hall : forallb
                     (fun c => Bool.eqb
                                 (one_of "abcdefghijklmnopqrstuvwxyz0123456789" c)
                                 (is_a_z_0_9 c))
                     (map N.of_nat (seq 0 123)) = true)
      by (vm_compute; reflexivity).
    rewrite forallb_forall in Hall.
    apply Bool.eqb_prop, Hall, below_listed. exact Hlow.
  - assert (Hno : is_a_z_0_9 c = false).
    { unfold is_a_z_0_9.
      replace (c <=? 122)%N with false by (symmetry; apply N.leb_gt; lia).
      replace (c <=? 57)%N with false by (symmetry; apply N.leb_gt; lia).
      now rewrite !andb_false_r. }
    rewrite Hno. unfold one_of.
    destruct (existsb (N.eqb c) (str "abcdefghijklmnopqrstuvwxyz0123456789"))
      eqn:E; [|reflexivity].
    apply existsb_exists in E as (x & Hin & Hx). apply N.eqb_eq in Hx. subst x.
    assert (Hlisted : forallb (fun x => (x <? 123)%N)
                        (str "abcdefghijklmnopqrstuvwxyz0123456789") = true)
      by (vm_compute; reflexivity).
    rewrite forallb_forall in Hlisted. apply Hlisted, N.ltb_lt in Hin. lia.
Qed.

Section Slug.
Context {engine : Engine}.

(** C7, as the code has it: the slug is the base path, a slash and the
    transformed string, with every run of slashes collapsed to one; the
    transformation lowercases, strips from the decomposed form the
    combining marks U+0300 to U+036F and no other mark, puts one hyphen for
    every maximal run of code units outside a-z, 0-9 and trims the hyphens
    of both ends. *)
Theorem slugify_refines_amended (str_ base : jsstring) :
  slugify str_ base = slugify_as_amended str_ base.
Proof.
  unfold slugify, slugify_as_amended, slug_path, slug_name. cbv zeta.
  rewrite replace_slashes.
  rewrite (@replace_runs_ext (one_of "/") is_slash (str "/") _ one_of_slash).
  do 3 f_equal.
  unfold replace at 2 3.
  rewrite replace_match_class, replace_plus.
  change (fun c => negb (combining_diacritical_mark c))
    with (fun c => negb (is_combining_mark c)).
  rewrite (@replace_runs_ext
             (fun c => negb (one_of "abcdefghijklmnopqrstuvwxyz0123456789" c))
             (fun c => negb (is_a_z_0_9 c)) (str "-"))
    by (intros c; now rewrite letter_or_digit_class).
  unfold dropWhileEnd.
  rewrite (@dropWhile_ext _ (one_of "-") is_hyphen _ one_of_hyphen).
  rewrite (@dropWhile_ext _ (one_of "-") is_hyphen _ one_of_hyphen).
  apply replace_edge_hyphens. apply hyphenated_single.
Qed.

End Slug.

(** ** Loading the sources *)

Section Loading.
Context {engine : Engine} {host : Host}.
Variable graphql : Query -> outcome Exn Response.

Lemma pages_app (evs evs' : list Event) :
  pages (evs ++ evs') = pages evs ++ pages evs'.
Proof.
  induction evs as [|[] evs IH]; simpl; try rewrite IH; reflexivity.
Qed.

Lemma listings_app (evs evs' : list Event) :
  listings (evs ++ evs') = listings evs ++ listings evs'.
Proof.
  induction evs as [|[] evs IH]; simpl; try rewrite IH; reflexivity.
Qed.

(** What the [try] and its [catch] do, by the first step that raises. *)
Lemma load_source_run (source : Source) (w : World) :
  let querying :=
    console_log (str "Querying Authors & Articles source:") (source_label source) in
  let caught (e : Exn) (d : DataSources.t) : outcome thrown unit * World :=
    (Ok tt, {| dataSources := d;
               events := (events w ++ [querying]) ++ [console_error (Foreign e)] |}) in
  load_source graphql source w =
    match graphql (query_authors source) with
    | Raise e => caught e (dataSources w)
    | Ok sourceAuthors =>
      match graphql (query_articles source) with
      | Raise e => caught e (dataSources w)
      | Ok sourceArticles =>
        match and_then (data_authors_edges sourceAuthors)
                       (map_raising (normalize_authors source)) with
        | Raise e => caught e (dataSources w)
        | Ok authors =>
          let d :=
            DataSources.set source
              {| DataSources.authors := authors;
                 DataSources.articles :=
                   DataSources.articles (DataSources.get source (dataSources w)) |}
              (dataSources w) in
          match and_then (data_articles_edges sourceArticles)
                         (map_raising (normalize_articles source)) with
          | Raise e => caught e d
          | Ok articles =>
              (Ok tt,
               {| dataSources :=
                    DataSources.set source
                      {| DataSources.authors :=
                           DataSources.authors (DataSources.get source d);
                         DataSources.articles := articles |} d;
                  events := events w ++ [querying] |})
          end
        end
      end
    end.
Proof.
  cbv zeta. unfold load_source, query_source, try_catch, bind, log, emit, await,
    read_dataSources, write_dataSources. simpl.
  destruct (graphql (query_authors source)); [|reflexivity].
  destruct (graphql (query_articles source)); [|reflexivity].
  destruct (and_then (data_authors_edges a) _); [|reflexivity].
  simpl. destruct (and_then (data_articles_edges a0) _); reflexivity.
Qed.



Lemma netlify_set (source : Source) (s : DataSources.slot) (d : DataSources.t) :
  DataSources.netlify (DataSources.set source s d) = DataSources.netlify d.
Proof. destruct source; reflexivity. Qed.

(** A source never stops the pass, and asks the host for no page. *)
Lemma load_source_ok (source : Source) (w : World) :
  let w' := snd (load_source graphql source w) in
  fst (load_source graphql source w) = Ok tt
  /\ pages (events w') = pages (events w)
  /\ listings (events w') = listings (events w)
  /\ DataSources.netlify (dataSources w') = DataSources.netlify (dataSources w).
Proof.
  cbv zeta. rewrite load_source_run. cbv zeta.
  destruct (graphql (query_authors source));
    [|simpl; rewrite !pages_app, !listings_app, !app_nil_r; auto].
  destruct (graphql (query_articles source));
    [|simpl; rewrite !pages_app, !listings_app, !app_nil_r; auto].
  destruct (and_then (data_authors_edges a) _);
    [|simpl; rewrite !pages_app, !listings_app, !app_nil_r; auto].
  destruct (and_then (data_articles_edges a0) _);
    simpl; rewrite !pages_app, !listings_app, ?app_nil_r, ?netlify_set; auto.
Qed.


End Loading.

(** ** The pass, stage by stage *)

Section Planning.
Context {engine : Engine} {host : Host}.
Variable graphql : Query -> outcome Exn Response.
Variable themeOptions : ThemeOptions.t.

Lemma quiet_bind (m k : M unit) :
  quiet m -> quiet k -> quiet (bind m (fun _ => k)).
Proof.
  intros Hm Hk w. unfold bind.
  destruct (Hm w) as (R & P & L).
  destruct (m w) as [r w1]. simpl in *. subst r.
  destruct (Hk w1) as (R' & P' & L'). rewrite R', P', L'. auto.
Qed.

Lemma quiet_log (msg section : jsstring) : quiet (log msg section).
Proof.
  intros w. simpl. rewrite pages_app, listings_app, !app_nil_r. auto.
Qed.

Lemma quiet_when (b : bool) (m : M unit) : quiet m -> quiet (when b m).
Proof.
  intros Hm. destruct b; [exact Hm|]. intros w. simpl. auto.
Qed.

Lemma quiet_load_source (source : Source) : quiet (load_source graphql source).
Proof.
  intros w. destruct (load_source_ok graphql source w) as (R & P & L & _). auto.
Qed.

(** Loading never stops the pass and asks the host for no page. *)
Lemma load_all_quiet : quiet (load_all graphql themeOptions).
Proof.
  unfold load_all. cbv zeta.
  apply quiet_bind; [intros w; simpl; auto|].
  apply quiet_bind; [apply quiet_log|].
  apply quiet_bind; [apply quiet_when, quiet_log|].
  apply quiet_bind; apply quiet_when, quiet_load_source.
Qed.

Lemma bind_five {B} (a b c d e : M unit) (k : unit -> M B) (w : World) :
  bind a (fun _ => bind b (fun _ => bind c (fun _ => bind d (fun _ => bind e k)))) w
  = bind (bind a (fun _ => bind b (fun _ => bind c (fun _ => bind d (fun _ => e))))) k w.
Proof.
  unfold bind.
  destruct (a w) as [[[]|?] w1]; [|reflexivity].
  destruct (b w1) as [[[]|?] w2]; [|reflexivity].
  destruct (c w2) as [[[]|?] w3]; [|reflexivity].
  destruct (d w3) as [[[]|?] w4]; [|reflexivity].
  reflexivity.
Qed.

(** [createPages] is loading, the check of lines 128-134, and planning. *)
Lemma createPages_stages (w : World) :
  createPages graphql themeOptions w =
    let w1 := snd (load_all graphql themeOptions w) in
    let articles := combined_articles (dataSources w1) in
    let authors := combined_authors (dataSources w1) in
    if (length articles =? 0)%nat || (length authors =? 0)%nat
    then (Raise NoAuthorOrPost, w1)
    else plan_pages themeOptions articles authors w1.
Proof.
  unfold createPages. cbv zeta. rewrite bind_five.
  change (bind (write_dataSources DataSources.initial) _)
    with (load_all graphql themeOptions).
  destruct (load_all_quiet w) as (R & _).
  unfold bind at 1.
  destruct (load_all graphql themeOptions w) as [r w1]. simpl in R. subst r.
  unfold bind at 1, read_dataSources. simpl snd.
  destruct ((length (combined_articles (dataSources w1)) =? 0)%nat
            || (length (combined_authors (dataSources w1)) =? 0)%nat);
    reflexivity.
Qed.

End Planning.

(** ** The planned pages *)

Lemma Forall2_In_l {A B} (R : A -> B -> Prop) (l : list A) (l' : list B) :
  Forall2 R l l' -> forall x, In x l -> exists y, In y l' /\ R x y.
Proof.
  induction 1 as [|a b l l' Hab _ IH]; simpl; intros x Hin; [destruct Hin|].
  destruct Hin as [<-|Hin]; [eauto|].
  destruct (IH x Hin) as (y & Hy & Hxy). eauto.
Qed.

Lemma Forall2_In_r {A B} (R : A -> B -> Prop) (l : list A) (l' : list B) :
  Forall2 R l l' -> forall y, In y l' -> exists x, In x l /\ R x y.
Proof.
  induction 1 as [|a b l l' Hab _ IH]; simpl; intros y Hin; [destruct Hin|].
  destruct Hin as [<-|Hin]; [eauto|].
  destruct (IH y Hin) as (x & Hx & Hxy). eauto.
Qed.

Section Pages.
Context {engine : Engine} {host : Host}.

Lemma bind_inv {A B} (m : M A) (k : A -> M B) (w w' : World) (b : B) :
  bind m k w = (Ok b, w') ->
  exists a w1, m w = (Ok a, w1) /\ k a w1 = (Ok b, w').
Proof.
  unfold bind. destruct (m w) as [[a|e] w1]; [eauto|discriminate].
Qed.

Lemma filter_raising_ok {E A} (f : A -> outcome E bool) (arr kept : list A) :
  filter_raising f arr = Ok kept ->
  forall x, In x kept <-> In x arr /\ f x = Ok true.
Proof.
  revert kept. induction arr as [|y arr IH]; simpl; intros kept H x.
  - inversion H; subst. simpl. tauto.
  - destruct (f y) as [keep|e] eqn:Fy; simpl in H; [|discriminate].
    destruct (filter_raising f arr) as [ys|e]; simpl in H; [|discriminate].
    inversion H; subst. specialize (IH ys eq_refl x).
    destruct keep; simpl; rewrite IH; intuition (subst; congruence).
Qed.

(** The lookup of lines 169-175 raises only for an article without an
    author field; a name that matches no author raises nothing. *)
Lemma authorsThatWroteTheArticle_defined (known : list Author.t)
      (article : Article.t) (raw : jsstring) :
  Article.author article = Some raw ->
  exists found, authorsThatWroteTheArticle known article = Ok found.
Proof.
  intros Hraw. unfold authorsThatWroteTheArticle. rewrite Hraw.
  induction known as [|author known [found IH]]; [exists []; reflexivity|].
  eexists. cbn [filter_raising and_then]. rewrite IH. reflexivity.
Qed.

Variables (basePath authorsPath mailchimp : jsstring) (pageLength : Z).
Variables (authors : list Author.t) (articles : list Article.t).

Lemma article_post_ok (article : Article.t) (index : nat) (w w' : World) :
  article_post basePath mailchimp authors articles article index w = (Ok tt, w') ->
  exists page,
    post_of authors article page
    /\ dataSources w' = dataSources w
    /\ events w' = events w ++ [createPage page].
Proof.
  unfold article_post, bind, try_catch, lift, throw, emit.
  destruct (authorsThatWroteTheArticle authors article) as [found|e] eqn:F;
    [|discriminate].
  intros [= <-]. eexists. split; [|split; reflexivity].
  repeat split; simpl. exact F.
Qed.

Lemma forEach_article_post_ok (arr : list Article.t) (index : nat) (w w' : World) :
  forEach_from (article_post basePath mailchimp authors articles) index arr w
  = (Ok tt, w') ->
  exists posts,
    Forall2 (post_of authors) arr posts
    /\ dataSources w' = dataSources w
    /\ events w' = events w ++ map createPage posts.
Proof.
  revert index w. induction arr as [|article arr IH]; simpl; intros index w H.
  - inversion H; subst. exists []. rewrite app_nil_r. auto.
  - apply bind_inv in H as ([] & w1 & H1 & H).
    apply article_post_ok in H1 as (page & Hpage & D1 & E1).
    apply IH in H as (posts & Hposts & D & E).
    exists (page :: posts). split; [now constructor|].
    split; [congruence|]. rewrite E, E1, <- app_assoc. reflexivity.
Qed.

Lemma author_page_ok (author : Author.t) (index : nat) (w w' : World) :
  author_page authorsPath pageLength articles author index w = (Ok tt, w') ->
  exists l,
    written_by articles author l
    /\ dataSources w' = dataSources w
    /\ events w' = events w ++ [createPaginatedPages l].
Proof.
  unfold author_page, bind, lift, emit.
  destruct (articlesTheAuthorHasWritten articles author) as [written|e] eqn:F;
    [|discriminate].
  intros [= <-]. eexists. split; [|split; reflexivity].
  split; [split; [reflexivity|simpl; eauto]|exact F].
Qed.

Lemma forEach_author_page_ok (arr : list Author.t) (index : nat) (w w' : World) :
  forEach_from (author_page authorsPath pageLength articles) index arr w
  = (Ok tt, w') ->
  exists ls,
    Forall2 (written_by articles) arr ls
    /\ dataSources w' = dataSources w
    /\ events w' = events w ++ map createPaginatedPages ls.
Proof.
  revert index w. induction arr as [|author arr IH]; simpl; intros index w H.
  - inversion H; subst. exists []. rewrite app_nil_r. auto.
  - apply bind_inv in H as ([] & w1 & H1 & H).
    apply author_page_ok in H1 as (l & Hl & D1 & E1).
    apply IH in H as (ls & Hls & D & E).
    exists (l :: ls). split; [now constructor|].
    split; [congruence|]. rewrite E, E1, <- app_assoc. reflexivity.
Qed.

Lemma pages_createPage (posts : list Page.t) :
  pages (map createPage posts) = posts
  /\ listings (map (@createPage host) posts) = [].
Proof.
  induction posts as [|page posts [IHp IHl]]; simpl; [auto|].
  now rewrite IHp, IHl.
Qed.

Lemma listings_createPaginatedPages (ls : list Paginated.t) :
  listings (map createPaginatedPages ls) = ls
  /\ pages (map (@createPaginatedPages host) ls) = [].
Proof.
  induction ls as [|l ls [IHl IHp]]; simpl; [auto|].
  now rewrite IHl, IHp.
Qed.

Lemma articlesTheAuthorHasWritten_ok (author : Author.t) (written : list Article.t) :
  articlesTheAuthorHasWritten articles author = Ok written ->
  forall article,
    In article written
    <-> In article articles
        /\ Article.secret article = false
        /\ names_author article author.
Proof.
  unfold articlesTheAuthorHasWritten, names_author.
  destruct (filter_raising _ articles) as [named|e] eqn:F; simpl; [|discriminate].
  intros [= <-] article. rewrite filter_In, (filter_raising_ok _ _ F article).
  rewrite negb_true_iff.
  destruct (Article.author article) as [raw|].
  - split.
    + intros [[Hin [= Hinc]] Hs]. eauto.
    + intros (Hin & Hs & raw' & [= <-] & Hinc). rewrite Hinc. auto.
  - split.
    + intros [[_ [=]] _].
    + intros (_ & _ & raw' & [=] & _).
Qed.

End Pages.

Section Plan.
Context {engine : Engine} {host : Host}.
Variable graphql : Query -> outcome Exn Response.
Variable themeOptions : ThemeOptions.t.

(** What a plan that went through has asked the host for. *)
Lemma plan_pages_ok (articles : list Article.t) (authors : list Author.t)
      (w w' : World) :
  plan_pages themeOptions articles authors w = (Ok tt, w') ->
  exists main posts ls,
    Paginated.pageTemplate main = templates_articles
    /\ Paginated.edges main
       = filter (fun article => negb (Article.secret article)) articles
    /\ Forall2 (post_of authors) articles posts
    /\ (if default true (ThemeOptions.authorsPage themeOptions)
        then Forall2 (written_by articles) authors ls
        else ls = [])
    /\ pages (events w') = pages (events w) ++ posts
    /\ listings (events w') = listings (events w) ++ main :: ls.
Proof.
  unfold plan_pages, forEach. cbv zeta. intros H.
  apply bind_inv in H as ([] & w1 & H1 & H). inversion H1; subst w1; clear H1.
  apply bind_inv in H as ([] & w2 & H2 & H). inversion H2; subst w2; clear H2.
  apply bind_inv in H as ([] & w3 & H3 & H). inversion H3; subst w3; clear H3.
  apply bind_inv in H as ([] & w4 & H4 & H).
  apply forEach_article_post_ok in H4 as (posts & Hposts & D4 & E4).
  simpl in E4.
  destruct (pages_createPage posts) as [Pp Lp].
  match type of E4 with
  | context [createPaginatedPages ?m] => exists m, posts
  end.
  destruct (default true (ThemeOptions.authorsPage themeOptions)); simpl in H.
  - apply bind_inv in H as ([] & w5 & H5 & H). inversion H5; subst w5; clear H5.
    apply forEach_author_page_ok in H as (ls & Hls & D & E).
    destruct (listings_createPaginatedPages ls) as [Ll Pl].
    exists ls. simpl in E. rewrite E, E4.
    rewrite !pages_app, !listings_app, Pp, Lp, Ll, Pl. simpl.
    rewrite ?app_nil_r, <- ?app_assoc. simpl.
    repeat (split; [reflexivity || assumption|]). reflexivity.
  - inversion H; subst w'. exists []. rewrite E4.
    rewrite !pages_app, !listings_app, Pp, Lp. simpl.
    rewrite ?app_nil_r, <- ?app_assoc. simpl.
    repeat (split; [reflexivity || assumption|]). reflexivity.
Qed.

(** C5: with no article or no author once the sources are merged, the pass
    throws its configuration error and has asked the host for no page; so it
    does with no author even when there are articles. *)
Theorem nothing_to_publish_is_fatal :
  combined_articles (aggregated graphql themeOptions) = []
  \/ combined_authors (aggregated graphql themeOptions) = [] ->
  let run := createPages graphql themeOptions start in
  fst run = Raise NoAuthorOrPost
  /\ pages (events (snd run)) = []
  /\ listings (events (snd run)) = [].
Proof.
  intros Hnone. cbv zeta. rewrite createPages_stages. cbv zeta.
  fold (aggregated graphql themeOptions).
  assert (Hgate : (length (combined_articles (aggregated graphql themeOptions)) =? 0)%nat
                  || (length (combined_authors (aggregated graphql themeOptions)) =? 0)%nat
                  = true).
  { destruct Hnone as [-> | ->]; simpl; [reflexivity|apply orb_true_r]. }
  rewrite Hgate. simpl.
  destruct (load_all_quiet graphql themeOptions start) as (_ & P & L).
  auto.
Qed.









(** C10, as the code has it: in a pass that goes through with author pages
    on, the listing of an author is given the articles that are not secret
    and whose author field has the author's name in it, case ignored; so a
    non-secret article is given to every author whose name occurs in its
    author field, listed as a co-author or not. *)
Theorem author_listing_by_substring (w : World) (author : Author.t) :
  createPages graphql themeOptions start = (Ok tt, w) ->
  default true (ThemeOptions.authorsPage themeOptions) = true ->
  In author (combined_authors (aggregated graphql themeOptions)) ->
  exists l,
    In l (listings (events w))
    /\ listing_of author l
    /\ forall article,
         In article (Paginated.edges l)
         <-> In article (combined_articles (aggregated graphql themeOptions))
             /\ Article.secret article = false
             /\ names_author article author.
Proof.
  intros Hrun Hon Hauthor. rewrite createPages_stages in Hrun. cbv zeta in Hrun.
  fold (aggregated graphql themeOptions) in Hrun.
  destruct ((length (combined_articles (aggregated graphql themeOptions)) =? 0)%nat
            || (length (combined_authors (aggregated graphql themeOptions)) =? 0)%nat);
    [discriminate|].
  apply plan_pages_ok in Hrun
    as (main & posts & ls & Tmain & Emain & Hposts & Hls & P & L).
  rewrite Hon in Hls.
  destruct (Forall2_In_l Hls _ Hauthor) as (l & Hl & Hlisting & Hwritten).
  exists l. split; [|split; [exact Hlisting|]].
  - rewrite L. apply in_or_app. right. now right.
  - now apply articlesTheAuthorHasWritten_ok.
Qed.

End Plan.

(** ** Runs on the basic host *)

Section BasicRuns.
#[local] Existing Instance Basic.engine.
#[local] Existing Instance Basic.host.
Import Basic.

(** C1, on the code: an article whose author field names no known author
    gets its page, with no author, and nothing is thrown. *)
Theorem unmatched_author_goes_unreported :
  let alice := mkAuthor "Alice" in
  let post := mkArticle "Post" "Bob" 1 false in
  let run := createPages (graphql_of [alice] [post]) noOptions start in
  authorsThatWroteTheArticle [alice] post = Ok []
  /\ fst run = Ok tt
  /\ map (fun page => (Page.path page, Page.authors (Page.context page)))
         (pages (events (snd run)))
     = [(str "/Post", [])].
Proof. vm_compute. auto. Qed.

Lemma nothing_to_publish_witness :
  let run :=
    createPages (graphql_of [] [mkArticle "Post" "Ann" 1 false]) noOptions start in
  fst run = Raise NoAuthorOrPost
  /\ pages (events (snd run)) = []
  /\ listings (events (snd run)) = [].
Proof.
  apply (@nothing_to_publish_is_fatal Basic.engine Basic.host).
  right. reflexivity.
Defined.




(** C10 as stated fails: a secret article is not given to the author whose
    name is its author field. *)
Lemma secret_article_not_attributed :
  let bob := mkAuthor "Bob" in
  let plan := mkArticle "Plan" "Bob" 1 true in
  let run := createPages (graphql_of [bob] [plan]) noOptions start in
  fst run = Ok tt
  /\ names_author plan bob
  /\ (exists l, In l (listings (events (snd run))) /\ listing_of bob l)
  /\ (forall l,
        In l (listings (events (snd run))) ->
        listing_of bob l ->
        ~ In plan (Paginated.edges l)).
Proof.
  cbv zeta. split; [vm_compute; reflexivity|].
  split; [eexists; split; [reflexivity|vm_compute; reflexivity]|].
  split.
  - eexists. split; [vm_compute; right; left; reflexivity|].
    split; [reflexivity|simpl; eauto].
  - intros l Hl [Htemplate _]. vm_compute in Hl.
    destruct Hl as [<-|[<-|[]]]; [discriminate Htemplate|].
    intros [].
Qed.

Lemma author_listing_witness :
  let ann := mkAuthor "Ann" in
  let graphql :=
    graphql_of [ann; mkAuthor "Joanne Smith"]
               [mkArticle "Post" "Joanne Smith" 1 false] in
  let w := snd (createPages graphql noOptions start) in
  exists l,
    In l (listings (events w))
    /\ listing_of ann l
    /\ forall article,
         In article (Paginated.edges l)
         <-> In article (combined_articles (aggregated graphql noOptions))
             /\ Article.secret article = false
             /\ names_author article ann.
Proof.
  apply (@author_listing_by_substring Basic.engine Basic.host).
  - vm_compute. reflexivity.
  - reflexivity.
  - vm_compute. left. reflexivity.
Defined.

(** The post's own page names Joanne Smith alone, and the post is on Ann's
    page all the same. *)
Example substring_without_being_coauthor :
  let ann := mkAuthor "Ann" in
  let joanne := mkAuthor "Joanne Smith" in
  let post := mkArticle "Post" "Joanne Smith" 1 false in
  authorsThatWroteTheArticle [ann; joanne] post = Ok [joanne]
  /\ articlesTheAuthorHasWritten [post] ann = Ok [post].
Proof. vm_compute. auto. Qed.

(** C7 as stated fails: U+20D7, a combining diacritical mark for symbols,
    is not stripped but taken for a character outside a-z, 0-9.  The string
    is its own lowercase and its own decomposed form. *)
Lemma slugify_keeps_other_marks :
  let marked := str "a" ++ [0x20D7%N] ++ str "b" in
  diacritical_mark 0x20D7%N = true
  /\ slugify marked [] = str "/a-b"
  /\ slugify_as_claimed marked [] = str "/ab"
  /\ slugify marked [] <> slugify_as_claimed marked [].
Proof.
  cbv zeta. repeat split; try (vm_compute; reflexivity).
  vm_compute. discriminate.
Qed.

Example slugify_author :
  slugify (str "/authors/Dennis Brotzky") (str "/authors")
  = str "/authors/authors-dennis-brotzky".
Proof. reflexivity. Qed.

Example slugify_decomposed_accent :
  slugify (str "Cafe" ++ [769%N] ++ str " Au Lait!") (str "/authors/")
  = str "/authors/cafe-au-lait".
Proof. reflexivity. Qed.

End BasicRuns.

(** ** More on unique lists *)

Section UniqueOrder.
Variables (A : Type) (key : A -> jsstring).

Lemma Map_set_fst (k : jsstring) (v : A) (m : list (jsstring * A)) :
  map fst (Map_set k v m)
  = if existsb (eqb k) (map fst m) then map fst m else map fst m ++ [k].
Proof.
  induction m as [|[k' v'] m IH]; simpl; [reflexivity|].
  destruct (eqb k k') eqn:E; simpl.
  - apply eqb_eq in E. now subst.
  - rewrite IH. now destruct (existsb (eqb k) (map fst m)).
Qed.

Lemma filter_twice {B} (f g : B -> bool) (l : list B) :
  filter f (filter g l) = filter (fun x => g x && f x) l.
Proof.
  induction l as [|x l IH]; simpl; [reflexivity|].
  destruct (g x); simpl; [destruct (f x)|]; now rewrite IH.
Qed.

Lemma Map_new_keys (arr : list A) (m : list (jsstring * A)) :
  map fst (fold_left (@Map_put A) (map (Map_entry key) arr) m)
  = map fst m
    ++ filter (fun k => negb (existsb (eqb k) (map fst m)))
              (first_occurrences (map key arr)).
Proof.
  revert m. induction arr as [|a arr IH]; intros m; simpl.
  - now rewrite app_nil_r.
  - rewrite IH.
    assert (Hk : map fst (Map_put m (Map_entry key a))
                 = if existsb (eqb (key a)) (map fst m)
                   then map fst m else map fst m ++ [key a])
      by apply Map_set_fst.
    rewrite Hk. clear Hk.
    destruct (existsb (eqb (key a)) (map fst m)) eqn:Known; simpl.
    + f_equal. rewrite filter_twice. apply filter_ext. intros k.
      destruct (eqb k (key a)) eqn:E; [|reflexivity].
      apply eqb_eq in E. subst k. now rewrite Known.
    + rewrite <- app_assoc. simpl. f_equal. f_equal.
      rewrite filter_twice. apply filter_ext. intros k.
      rewrite existsb_app. simpl. rewrite orb_false_r.
      now destruct (eqb k (key a)), (existsb (eqb k) (map fst m)).
Qed.

Lemma Map_set_fresh (k : jsstring) (v : A) (m : list (jsstring * A)) :
  ~ In k (map fst m) -> Map_set k v m = m ++ [(k, v)].
Proof.
  induction m as [|[k' v'] m IH]; simpl; intros Hk; [reflexivity|].
  destruct (eqb k k') eqn:E.
  - apply eqb_eq in E. subst. tauto.
  - rewrite IH by tauto. reflexivity.
Qed.

Lemma Map_new_distinct (arr : list A) (m : list (jsstring * A)) :
  NoDup (map fst m ++ map key arr) ->
  fold_left (@Map_put A) (map (Map_entry key) arr) m
  = m ++ map (Map_entry key) arr.
Proof.
  revert m. induction arr as [|a arr IH]; intros m ND; simpl.
  - now rewrite app_nil_r.
  - assert (Hput : Map_put m (Map_entry key a) = m ++ [(key a, a)]).
    { apply Map_set_fresh. apply NoDup_remove_2 in ND.
      intros Hin. apply ND. apply in_or_app. now left. }
    rewrite Hput, IH.
    + now rewrite <- app_assoc.
    + rewrite map_app. simpl. rewrite <- app_assoc. exact ND.
Qed.

Lemma getUniqueListBy_distinct (arr : list A) :
  NoDup (map key arr) -> getUniqueListBy arr key = arr.
Proof.
  intros ND. unfold getUniqueListBy, Map_new.
  change (fun item => (key item, item)) with (Map_entry key).
  change (fun m kv => Map_set (fst kv) (snd kv) m) with (@Map_put A).
  rewrite Map_new_distinct by exact ND. simpl.
  unfold Map_values. rewrite map_map. simpl. apply map_id.
Qed.

(** X1: [getUniqueListBy] lists the keys once each, in the order in which they
    first occur in the array. *)
Theorem getUniqueListBy_first_occurrence_order (arr : list A) :
  map key (getUniqueListBy arr key) = first_occurrences (map key arr).
Proof.
  unfold getUniqueListBy, Map_new.
  destruct (@Map_new_invariant A key arr []) as [_ Hm];
    [constructor | intros ? [] |].
  change (fun item => (key item, item)) with (Map_entry key).
  change (fun m kv => Map_set (fst kv) (snd kv) m) with (@Map_put A).
  rewrite Map_values_keys by exact Hm.
  rewrite Map_new_keys. simpl.
  generalize (first_occurrences (map key arr)). intros l.
  induction l as [|k l IH]; simpl; congruence.
Qed.

(** X2: an array whose keys are all different is returned as it is. *)
Theorem getUniqueListBy_keeps_distinct (arr : list A) :
  NoDup (map key arr) -> getUniqueListBy arr key = arr.
Proof. apply getUniqueListBy_distinct. Qed.

(** X3: making a list unique twice is making it unique once. *)
Theorem getUniqueListBy_idempotent (arr : list A) :
  getUniqueListBy (getUniqueListBy arr key) key = getUniqueListBy arr key.
Proof.
  apply getUniqueListBy_distinct. apply getUniqueListBy_spec.
Qed.

End UniqueOrder.

(** ** More on the article order *)

Lemma byDate_after (a b : Article.t) :
  (byDate a b >? 0)%Z = true
  <-> (Article.dateForSEO a < Article.dateForSEO b)%Z.
Proof. unfold byDate. rewrite Z.gtb_gt. lia. Qed.

Lemma sort_insert_newest_first (article : Article.t) (l : list Article.t) :
  newest_first l -> newest_first (sort_insert byDate article l).
Proof.
  unfold newest_first.
  induction l as [|b l IH]; simpl; intros Hl.
  - constructor; constructor.
  - apply StronglySorted_inv in Hl as [Hl Hb].
    destruct (byDate article b >? 0)%Z eqn:E.
    + apply byDate_after in E. constructor; [auto|].
      apply (Permutation_Forall (sort_insert_Permutation byDate article l)).
      constructor; [lia|exact Hb].
    + assert (Hle : (Article.dateForSEO b <= Article.dateForSEO article)%Z).
      { destruct (Z.lt_ge_cases (Article.dateForSEO article) (Article.dateForSEO b))
          as [Hlt|Hge]; [|exact Hge].
        apply byDate_after in Hlt. congruence. }
      constructor; [now constructor|].
      constructor; [exact Hle|].
      eapply Forall_impl; [|exact Hb]. simpl. intros c Hc. lia.
Qed.

Lemma sort_byDate_newest_first (arr : list Article.t) :
  newest_first (sort byDate arr).
Proof.
  induction arr as [|a arr IH]; simpl; [constructor|].
  now apply sort_insert_newest_first.
Qed.

Lemma filter_newest_first (f : Article.t -> bool) (l : list Article.t) :
  newest_first l -> newest_first (filter f l).
Proof.
  unfold newest_first. induction l as [|a l IH]; simpl; intros Hl; [constructor|].
  apply StronglySorted_inv in Hl as [Hl Ha].
  destruct (f a); [|auto].
  constructor; [auto|].
  apply Forall_forall. intros b Hb. apply filter_In in Hb as [Hb _].
  rewrite Forall_forall in Ha. auto.
Qed.

Lemma sort_insert_same_date (t : Z) (article : Article.t) (l : list Article.t) :
  filter (fun a => Z.eqb (Article.dateForSEO a) t) (sort_insert byDate article l)
  = filter (fun a => Z.eqb (Article.dateForSEO a) t) (article :: l).
Proof.
  induction l as [|b l IH]; [reflexivity|].
  cbn [sort_insert]. destruct (byDate article b >? 0)%Z eqn:E; [|reflexivity].
  apply byDate_after in E.
  cbn [filter] in *. rewrite IH.
  destruct (Z.eqb_spec (Article.dateForSEO b) t),
           (Z.eqb_spec (Article.dateForSEO article) t); try reflexivity.
  lia.
Qed.

(** X4: the combined articles are newest first, and so is what the public
    listing is given of them. *)
Theorem combined_articles_newest_first (d : DataSources.t) :
  newest_first (combined_articles d)
  /\ newest_first
       (filter (fun article => negb (Article.secret article))
               (combined_articles d)).
Proof.
  split; [|apply filter_newest_first]; apply sort_byDate_newest_first.
Qed.

(** X5: articles of one date stay in the order of the merged sources: local
    ones first, each source in its own order. *)
Theorem combined_articles_stable (d : DataSources.t) (t : Z) :
  filter (fun a => Z.eqb (Article.dateForSEO a) t) (combined_articles d)
  = filter (fun a => Z.eqb (Article.dateForSEO a) t)
      (DataSources.articles (DataSources.local d)
       ++ DataSources.articles (DataSources.contentful d)
       ++ DataSources.articles (DataSources.netlify d)).
Proof.
  unfold combined_articles.
  generalize (DataSources.articles (DataSources.local d)
              ++ DataSources.articles (DataSources.contentful d)
              ++ DataSources.articles (DataSources.netlify d)).
  intros arr. induction arr as [|a arr IH]; [reflexivity|].
  cbn [sort fold_right]. fold (sort byDate arr).
  rewrite sort_insert_same_date. cbn [filter]. now rewrite IH.
Qed.

(** ** More on next articles *)

Section NextArticles.
Variable A : Type.

Lemma article_at_inside (articles : list A) (k : nat) :
  k < length articles ->
  exists a, nth_error articles k = Some a /\ article_at articles k = [a].
Proof.
  intros Hk. unfold article_at.
  destruct (nth_error articles k) as [a|] eqn:E; [eauto|].
  apply nth_error_None in E. lia.
Qed.

Lemma article_at_outside (articles : list A) (k : nat) :
  length articles <= k -> article_at articles k = [].
Proof.
  intros Hk. unfold article_at.
  apply nth_error_None in Hk. now rewrite Hk.
Qed.

Lemma article_at_In (articles : list A) (k : nat) (x : A) :
  In x (article_at articles k) -> nth_error articles k = Some x.
Proof.
  unfold article_at. destruct (nth_error articles k); simpl; [|tauto].
  intros [<-|[]]. reflexivity.
Qed.

Lemma firstn_1_article_at (articles : list A) :
  firstn 1 articles = article_at articles 0.
Proof. destruct articles; reflexivity. Qed.

(** The three places an article can have in a list of three or more. *)
Lemma next_by_place (articles : list A) (i : nat) :
  3 <= length articles -> i < length articles ->
  let n := length articles in
  (i + 2 < n
   /\ next articles i = article_at articles (i + 1) ++ article_at articles (i + 2))
  \/ (i + 2 = n
      /\ next articles i = article_at articles (i + 1) ++ article_at articles 0)
  \/ (i + 1 = n
      /\ next articles i = article_at articles 0 ++ article_at articles 1).
Proof.
  intros Hn Hi. cbv zeta. unfold next.
  rewrite slice_as_articles, slice_first_two, firstn_1_article_at.
  assert (H1 : (length articles =? 1) = false) by (apply Nat.eqb_neq; lia).
  assert (H2 : (length articles =? 2) = false) by (apply Nat.eqb_neq; lia).
  rewrite H1, H2.
  destruct (Nat.lt_ge_cases (i + 2) (length articles)) as [Hlt|Hge].
  - left. split; [exact Hlt|].
    destruct (article_at_inside articles (k := i + 1)) as (a & _ & ->); [lia|].
    destruct (article_at_inside articles (k := i + 2)) as (b & _ & ->); [lia|].
    reflexivity.
  - right. rewrite (article_at_outside articles (k := i + 2)) by lia.
    destruct (Nat.eq_dec (i + 2) (length articles)) as [Heq|Hne].
    + left. split; [exact Heq|].
      destruct (article_at_inside articles (k := i + 1)) as (a & _ & ->); [lia|].
      reflexivity.
    + right. split; [lia|].
      rewrite (article_at_outside articles (k := i + 1)) by lia.
      destruct (article_at_inside articles (k := 0)) as (a & _ & ->); [lia|].
      destruct (article_at_inside articles (k := 1)) as (b & _ & ->); [lia|].
      reflexivity.
Qed.

Lemma mod_wrap (n k : nat) : 0 < n -> k < n -> (n + k) mod n = k.
Proof.
  intros Hn Hk. rewrite Nat.add_comm.
  replace (k + n) with (k + 1 * n) by lia.
  rewrite Nat.Div0.mod_add. now apply Nat.mod_small.
Qed.

(** X6: with three articles or more, the suggestions are the two articles that
    follow, the list taken as a ring. *)
Theorem next_is_cyclic (articles : list A) (i : nat) :
  3 <= length articles -> i < length articles ->
  let n := length articles in
  next articles i
  = article_at articles ((i + 1) mod n) ++ article_at articles ((i + 2) mod n)
  /\ length (next articles i) = 2.
Proof.
  intros Hn Hi. cbv zeta.
  destruct (next_by_place articles Hn Hi) as [[Hp ->]|[[Hp ->]|[Hp ->]]].
  - rewrite !Nat.mod_small by lia. split; [reflexivity|].
    destruct (article_at_inside articles (k := i + 1)) as (a & _ & ->); [lia|].
    destruct (article_at_inside articles (k := i + 2)) as (b & _ & ->); [lia|].
    reflexivity.
  - rewrite Nat.mod_small by lia. rewrite Hp, Nat.Div0.mod_same.
    split; [reflexivity|].
    destruct (article_at_inside articles (k := i + 1)) as (a & _ & ->); [lia|].
    destruct (article_at_inside articles (k := 0)) as (b & _ & ->); [lia|].
    reflexivity.
  - rewrite Hp, Nat.Div0.mod_same.
    replace (i + 2) with (length articles + 1) by lia.
    rewrite mod_wrap by lia. split; [reflexivity|].
    destruct (article_at_inside articles (k := 0)) as (a & _ & ->); [lia|].
    destruct (article_at_inside articles (k := 1)) as (b & _ & ->); [lia|].
    reflexivity.
Qed.

(** X7: with three different articles or more, an article is never among its
    own suggestions. *)
Theorem next_excludes_itself (articles : list A) (i : nat) (article : A) :
  NoDup articles -> 3 <= length articles ->
  nth_error articles i = Some article ->
  ~ In article (next articles i).
Proof.
  intros ND Hn Hi Hin.
  assert (Hlt : i < length articles) by (apply nth_error_Some; congruence).
  assert (Hsame : forall j, nth_error articles j = Some article -> j = i).
  { intros j Hj. apply (proj1 (NoDup_nth_error articles) ND); [|congruence].
    apply nth_error_Some. congruence. }
  destruct (next_by_place articles Hn Hlt) as [[Hp E]|[[Hp E]|[Hp E]]];
    rewrite E in Hin; apply in_app_or in Hin as [Hin|Hin];
    apply article_at_In, Hsame in Hin; lia.
Qed.

(** X8: there are never more than two suggestions, and each is an article of
    the list. *)
Theorem next_within_articles (articles : list A) (i : nat) :
  length (next articles i) <= 2
  /\ forall article, In article (next articles i) -> In article articles.
Proof.
  unfold next. rewrite slice_as_articles, slice_first_two, firstn_1_article_at.
  assert (Hat : forall k,
             length (article_at articles k) <= 1
             /\ forall x, In x (article_at articles k) -> In x articles).
  { intros k. unfold article_at.
    destruct (nth_error articles k) as [a|] eqn:E; simpl; split; try lia; try tauto.
    intros x [<-|[]]. eapply nth_error_In; eauto. }
  destruct (Hat (i + 1)) as [L1 M1], (Hat (i + 2)) as [L2 M2],
           (Hat 0) as [L3 M3], (Hat 1) as [L4 M4].
  destruct (length articles =? 1); [simpl; split; [lia|tauto]|].
  set (following := article_at articles (i + 1) ++ article_at articles (i + 2)).
  assert (Lf : length following <= 2) by (unfold following; rewrite length_app; lia).
  assert (Mf : forall x, In x following -> In x articles).
  { unfold following. intros x Hx. apply in_app_or in Hx as [Hx|Hx]; auto. }
  set (wrapped := if length following =? 0
                  then article_at articles 0 ++ article_at articles 1
                  else following).
  assert (Lw : length wrapped <= 2).
  { unfold wrapped. destruct (length following =? 0); [rewrite length_app; lia|lia]. }
  assert (Mw : forall x, In x wrapped -> In x articles).
  { unfold wrapped. destruct (length following =? 0); [|exact Mf].
    intros x Hx. apply in_app_or in Hx as [Hx|Hx]; auto. }
  destruct (length wrapped =? 1) eqn:One; simpl; [|split; assumption].
  destruct (negb (length articles =? 2)); [|split; assumption].
  apply Nat.eqb_eq in One. split.
  - rewrite length_app. lia.
  - intros x Hx. apply in_app_or in Hx as [Hx|Hx]; auto.
Qed.

End NextArticles.

(** ** More on pagination paths *)

Lemma str_inj (s t : String.string) : str s = str t -> s = t.
Proof.
  unfold str. intros H.
  rewrite <- (String.string_of_list_ascii_of_string s),
          <- (String.string_of_list_ascii_of_string t).
  f_equal.
  revert H. generalize (String.list_ascii_of_string s) as l,
                       (String.list_ascii_of_string t) as l'.
  induction l as [|a l IH]; intros [|b l']; simpl; try discriminate; auto.
  intros [= Hab Hl]. f_equal; [|auto].
  rewrite <- (ascii_N_embedding a), <- (ascii_N_embedding b). now rewrite Hab.
Qed.

Lemma Number_toString_inj (n m : Z) :
  Number_toString n = Number_toString m -> n = m.
Proof.
  unfold Number_toString. intros H. apply str_inj in H.
  apply DecimalZ.to_int_inj.
  assert (Hnn : forall z, Z.to_int z <> Decimal.Pos Decimal.Nil
                          /\ Z.to_int z <> Decimal.Neg Decimal.Nil).
  { intros [|p|p]; simpl; split; try discriminate;
      intros [= E]; now apply DecimalPos.Unsigned.to_uint_nonnil in E. }
  destruct (Hnn n) as [Hn1 Hn2], (Hnn m) as [Hm1 Hm2].
  pose proof (DecimalString.NilZero.isi (Z.to_int n) Hn1 Hn2) as En.
  pose proof (DecimalString.NilZero.isi (Z.to_int m) Hm1 Hm2) as Em.
  rewrite H in En. congruence.
Qed.

Lemma buildPaginatedPath_inj (n m : Z) (basePath : jsstring) :
  (1 < n)%Z ->
  buildPaginatedPath n basePath = buildPaginatedPath m basePath ->
  n = m.
Proof.
  intros Hn. unfold buildPaginatedPath.
  apply Z.gtb_lt in Hn. rewrite Hn.
  destruct (eqb basePath (str "/")), (m >? 1)%Z; intros H.
  - apply app_inv_head in H. apply app_inv_head in H.
    now apply Number_toString_inj.
  - rewrite <- (app_nil_r basePath) in H at 2. apply app_inv_head in H.
    discriminate.
  - apply app_inv_head in H. apply app_inv_head in H.
    now apply Number_toString_inj.
  - rewrite <- (app_nil_r basePath) in H at 2. apply app_inv_head in H.
    discriminate.
Qed.

(** X9: a page after the first has a path of its own: no other index, and not
    the index page, shares it. *)
Theorem buildPaginatedPath_distinct (n m : Z) (basePath : jsstring) :
  (1 < n)%Z -> n <> m ->
  buildPaginatedPath n basePath <> buildPaginatedPath m basePath.
Proof.
  intros Hn Hnm H. apply Hnm. now apply (buildPaginatedPath_inj m basePath Hn).
Qed.

(** X10: only the base path ["/"] is kept from doubling its slash: a longer base
    path that ends in a slash gives paths with two slashes in a row. *)
Theorem buildPaginatedPath_trailing_slash (n : Z) (prefix : jsstring) :
  (1 < n)%Z -> prefix <> [] ->
  buildPaginatedPath n (prefix ++ str "/")
  = prefix ++ str "//page/" ++ Number_toString n.
Proof.
  intros Hn Hp. unfold buildPaginatedPath.
  apply Z.gtb_lt in Hn. rewrite Hn.
  assert (E : eqb (prefix ++ str "/") (str "/") = false).
  { apply eqb_neq. intros H. apply (f_equal (@length _)) in H.
    rewrite length_app in H. simpl in H.
    destruct prefix; [congruence|simpl in H; lia]. }
  rewrite E. now rewrite <- app_assoc.
Qed.

(** ** More on slugs *)

Lemma replace_runs_cons (p : code_unit -> bool) (by_ : jsstring)
      (c : code_unit) (s : jsstring) :
  replace_runs p by_ (c :: s)
  = if p c then by_ ++ replace_runs p by_ (skipn (span_len p s) s)
    else c :: replace_runs p by_ s.
Proof.
  rewrite <- (replace_plus p by_ (c :: s) false).
  change (replace_from (match_run 1 p) by_ 0 false (c :: s))
    with (match match_run 1 p false (c :: s) with
          | Some (S k) => by_ ++ replace_from (match_run 1 p) by_ k false s
          | Some O => by_ ++ c :: replace_from (match_run 1 p) by_ 0 false s
          | None => c :: replace_from (match_run 1 p) by_ 0 false s
          end).
  unfold match_run at 1. simpl span_len.
  destruct (p c); cbv zeta; simpl Nat.leb; cbv iota.
  - rewrite replace_from_skip by apply span_len_le.
    now rewrite replace_plus.
  - now rewrite replace_plus.
Qed.

Section OneForEachRun.
Variables (p : code_unit -> bool) (c0 : code_unit).
Hypothesis outside : forall c, p c = false -> N.eqb c c0 = false.

(** With a single code unit put for each run of a class it belongs to, the
    code unit never comes twice in a row. *)
Lemma replace_runs_no_two (s : jsstring) :
  no_two_in_a_row (fun c => N.eqb c c0) (replace_runs p [c0] s) = true
  /\ (span_len p s = 0 ->
      starts_in (fun c => N.eqb c c0) (replace_runs p [c0] s) = false).
Proof.
  remember (length s) as len eqn:Hlen. revert s Hlen.
  induction len as [len IH] using lt_wf_ind. intros s Hlen.
  destruct s as [|c s]; [split; reflexivity|].
  rewrite replace_runs_cons. destruct (p c) eqn:Hc.
  - destruct (IH (length (skipn (span_len p s) s))) with (s := skipn (span_len p s) s)
      as [Hsingle Hstart]; [subst len; simpl; rewrite length_skipn; lia|reflexivity|].
    specialize (Hstart (span_len_skipn p s)).
    split; [|simpl; rewrite Hc; discriminate].
    change ([c0] ++ replace_runs p [c0] (skipn (span_len p s) s))
      with (c0 :: replace_runs p [c0] (skipn (span_len p s) s)).
    destruct (replace_runs p [c0] (skipn (span_len p s) s)) as [|d out];
      [simpl; reflexivity|].
    simpl in Hstart.
    change (no_two_in_a_row (fun c1 => N.eqb c1 c0) (c0 :: d :: out))
      with (negb (N.eqb c0 c0 && N.eqb d c0)
            && no_two_in_a_row (fun c1 => N.eqb c1 c0) (d :: out)).
    now rewrite Hstart, Hsingle, andb_false_r.
  - destruct (IH (length s)) with (s := s) as [Hsingle _];
      [subst len; simpl; lia|reflexivity|].
    pose proof (outside Hc) as Hh.
    split; [|intros _; exact Hh].
    destruct (replace_runs p [c0] s) as [|d out]; [simpl; reflexivity|].
    change (no_two_in_a_row (fun c1 => N.eqb c1 c0) (c :: d :: out))
      with (negb (N.eqb c c0 && N.eqb d c0)
            && no_two_in_a_row (fun c1 => N.eqb c1 c0) (d :: out)).
    now rewrite Hh, Hsingle.
Qed.

End OneForEachRun.

(** Collapsing the slashes of a string that has none doubled changes
    nothing. *)
Lemma collapse_single_slashes (s : jsstring) :
  no_two_in_a_row is_slash s = true ->
  replace_runs is_slash (str "/") s = s.
Proof.
  induction s as [|c s IH]; intros Hs; [reflexivity|].
  rewrite replace_runs_cons.
  assert (Hs' : no_two_in_a_row is_slash s = true).
  { simpl in Hs. apply andb_prop in Hs. tauto. }
  destruct (is_slash c) eqn:Hc.
  - assert (Hspan : span_len is_slash s = 0).
    { destruct s as [|d s]; [reflexivity|].
      simpl in Hs. rewrite Hc in Hs. simpl in Hs.
      apply andb_prop in Hs as [Hd _]. apply negb_true_iff in Hd.
      simpl. now rewrite Hd. }
    rewrite Hspan. simpl skipn. rewrite IH by exact Hs'.
    apply N.eqb_eq in Hc. now subst c.
  - now rewrite IH.
Qed.

Lemma no_two_then_free (q : code_unit -> bool) (a b : jsstring) (c : code_unit) :
  no_two_in_a_row q (a ++ [c]) = true ->
  Forall (fun x => q x = false) b ->
  no_two_in_a_row q (a ++ c :: b) = true.
Proof.
  intros Ha Hb. induction a as [|x a IH].
  - change ([] ++ c :: b) with (c :: b).
    clear Ha. revert c. induction Hb as [|d b Hd Hb IH]; intros c.
    + reflexivity.
    + change (no_two_in_a_row q (c :: d :: b))
        with (negb (q c && q d) && no_two_in_a_row q (d :: b)).
      rewrite Hd, andb_false_r. exact (IH d).
  - change (no_two_in_a_row q ((x :: a) ++ [c]))
      with (match a ++ [c] with d :: _ => negb (q x && q d) | [] => true end
            && no_two_in_a_row q (a ++ [c])) in Ha.
    change (no_two_in_a_row q ((x :: a) ++ c :: b))
      with (match a ++ c :: b with d :: _ => negb (q x && q d) | [] => true end
            && no_two_in_a_row q (a ++ c :: b)).
    apply andb_prop in Ha as [Hx Ha]. rewrite (IH Ha), andb_true_r.
    destruct a; exact Hx.
Qed.

Lemma replace_runs_Forall (p : code_unit -> bool) (by_ : jsstring)
      (P : code_unit -> Prop) (s : jsstring) :
  Forall P by_ -> (forall c, p c = false -> P c) ->
  Forall P (replace_runs p by_ s).
Proof.
  intros Hby Hout. unfold replace_runs. apply Forall_forall. intros c Hc.
  apply in_concat in Hc as (piece & Hpiece & Hc).
  apply in_map_iff in Hpiece as ([b run] & <- & Hrun).
  apply runs_wf in Hrun as [_ Hall]. simpl in Hc.
  destruct b.
  - rewrite Forall_forall in Hby. auto.
  - rewrite Forall_forall in Hall. auto.
Qed.

Lemma dropWhile_suffix {B} (q : B -> bool) (l : list B) :
  exists dropped, l = dropped ++ dropWhile q l.
Proof.
  induction l as [|x l [dropped IH]]; simpl; [now exists []|].
  destruct (q x); [|now exists []].
  exists (x :: dropped). simpl. now f_equal.
Qed.

Lemma dropWhileEnd_prefix {B} (q : B -> bool) (l : list B) :
  exists dropped, l = dropWhileEnd q l ++ dropped.
Proof.
  unfold dropWhileEnd. destruct (dropWhile_suffix q (rev l)) as [dropped E].
  exists (rev dropped). rewrite <- rev_app_distr, <- E. now rewrite rev_involutive.
Qed.

Lemma dropWhile_not_starting {B} (q : B -> bool) (l : list B) :
  match dropWhile q l with x :: _ => q x = false | [] => True end.
Proof.
  induction l as [|x l IH]; simpl; [exact I|].
  destruct (q x) eqn:E; [exact IH|exact E].
Qed.

Lemma single_hyphens_app (a b : jsstring) :
  single_hyphens (a ++ b) = true ->
  single_hyphens a = true /\ single_hyphens b = true.
Proof.
  induction a as [|x a IH]; intros H; [auto|].
  change (single_hyphens ((x :: a) ++ b))
    with (match a ++ b with d :: _ => negb (is_hyphen x && is_hyphen d) | [] => true end
          && single_hyphens (a ++ b)) in H.
  apply andb_prop in H as [Hx H]. destruct (IH H) as [Ha Hb].
  split; [|exact Hb].
  change (single_hyphens (x :: a))
    with (match a with d :: _ => negb (is_hyphen x && is_hyphen d) | [] => true end
          && single_hyphens a).
  rewrite Ha, andb_true_r. destruct a; [reflexivity|exact Hx].
Qed.

(** What trimming the hyphens leaves. *)
Lemma trim_hyphens_shape (P : code_unit -> Prop) (s : jsstring) :
  Forall P s -> single_hyphens s = true ->
  Forall P (trim_hyphens s)
  /\ single_hyphens (trim_hyphens s) = true
  /\ starts_with_hyphen (trim_hyphens s) = false
  /\ starts_with_hyphen (rev (trim_hyphens s)) = false.
Proof.
  intros HP Hs. unfold trim_hyphens.
  destruct (dropWhile_suffix is_hyphen s) as [lead E].
  destruct (dropWhileEnd_prefix is_hyphen (dropWhile is_hyphen s)) as [trail E'].
  set (slug := dropWhileEnd is_hyphen (dropWhile is_hyphen s)) in *.
  assert (Es : s = lead ++ slug ++ trail) by (rewrite <- E'; exact E).
  split; [|split; [|split]].
  - rewrite Es in HP. apply Forall_app in HP as [_ HP].
    now apply Forall_app in HP as [HP _].
  - rewrite Es in Hs. apply single_hyphens_app in Hs as [_ Hs].
    now apply single_hyphens_app in Hs as [Hs _].
  - pose proof (dropWhile_not_starting is_hyphen s) as Hhead.
    unfold slug. destruct (dropWhile is_hyphen s) as [|c rest]; [reflexivity|].
    rewrite dropWhileEnd_cons, Hhead.
    destruct (dropWhileEnd is_hyphen rest); simpl; exact Hhead.
  - unfold slug, dropWhileEnd. rewrite rev_involutive.
    pose proof (dropWhile_not_starting is_hyphen (rev (dropWhile is_hyphen s))) as Hhead.
    destruct (dropWhile is_hyphen (rev (dropWhile is_hyphen s))); [reflexivity|].
    exact Hhead.
Qed.

Lemma slug_unit_not_slash (c : code_unit) :
  is_a_z_0_9 c || is_hyphen c = true -> is_slash c = false.
Proof.
  unfold is_a_z_0_9, is_hyphen, is_slash, hyphen, slash. intros H.
  apply N.eqb_neq. intros ->. discriminate.
Qed.

Section SlugShape.
Context {engine : Engine}.

(** X11: a slug never has two slashes in a row, whatever the base path. *)
Theorem slugify_single_slashes (str_ base : jsstring) :
  no_two_in_a_row is_slash (slugify str_ base) = true.
Proof.
  unfold slugify. rewrite replace_slashes.
  apply (@replace_runs_no_two is_slash slash).
  intros c Hc. exact Hc.
Qed.

(** X12: under a base path that has no doubled slash and does not end in one,
    the slug is the base path, a slash and a name made of [a-z], [0-9] and
    single hyphens, with no hyphen at either end. *)
Theorem slugify_shape (str_ base : jsstring) :
  no_two_in_a_row is_slash (base ++ str "/") = true ->
  exists name,
    slugify str_ base = base ++ str "/" ++ name
    /\ Forall (fun c => is_a_z_0_9 c || is_hyphen c = true) name
    /\ single_hyphens name = true
    /\ starts_with_hyphen name = false
    /\ starts_with_hyphen (rev name) = false.
Proof.
  intros Hbase. unfold slugify. rewrite replace_slashes.
  unfold replace at 1 2 3.
  rewrite replace_match_class, replace_plus.
  set (hyphenated := replace_runs (fun c => negb (is_a_z_0_9 c)) (str "-") _).
  assert (Hsingle : single_hyphens hyphenated = true)
    by apply hyphenated_single.
  assert (Hunits : Forall (fun c => is_a_z_0_9 c || is_hyphen c = true) hyphenated).
  { apply replace_runs_Forall.
    - repeat constructor.
    - intros c Hc. apply negb_false_iff in Hc. now rewrite Hc. }
  change (replace_from match_edge_hyphens [] 0 true hyphenated)
    with (replace match_edge_hyphens [] hyphenated).
  rewrite replace_edge_hyphens by exact Hsingle.
  destruct (trim_hyphens_shape Hunits Hsingle) as (Hu & Hs & Hfirst & Hlast).
  exists (trim_hyphens hyphenated). split; [|auto].
  apply collapse_single_slashes.
  apply (@no_two_then_free is_slash base _ slash); [exact Hbase|].
  eapply Forall_impl; [|exact Hu]. intros c. apply slug_unit_not_slash.
Qed.

End SlugShape.

(** ** The outcome of the pass and what it asks of the host *)

Section Outcome.
Context {engine : Engine} {host : Host}.

Lemma bind_emit {B} (e : Event) (k : unit -> M B) (w : World) :
  bind (emit e) k w
  = k tt {| dataSources := dataSources w; events := events w ++ [e] |}.
Proof. reflexivity. Qed.

Lemma bind_run {A B} (m : M A) (k : A -> M B) (w : World) :
  bind m k w
  = match m w with
    | (Ok a, w') => k a w'
    | (Raise e, w') => (Raise e, w')
    end.
Proof. reflexivity. Qed.

Lemma first_without_author_none (articles : list Article.t) :
  first_without_author articles = None <-> forallb has_author articles = true.
Proof.
  unfold first_without_author.
  induction articles as [|a articles IH]; simpl; [tauto|].
  destruct (has_author a); simpl; [exact IH|]. split; discriminate.
Qed.

Lemma takeWhile_all {B} (p : B -> bool) (l : list B) :
  forallb p l = true -> takeWhile p l = l.
Proof.
  induction l as [|x l IH]; simpl; [reflexivity|].
  destruct (p x); simpl; [|discriminate]. intros H. now rewrite IH.
Qed.

Lemma authorsThatWroteTheArticle_missing (known : list Author.t)
      (article : Article.t) :
  known <> [] -> Article.author article = None ->
  authorsThatWroteTheArticle known article = Raise TypeError.
Proof.
  intros Hk Hnone. unfold authorsThatWroteTheArticle. rewrite Hnone.
  destruct known as [|author known]; [congruence|reflexivity].
Qed.

Lemma filter_raising_total {E B} (f : B -> outcome E bool) (l : list B) :
  (forall x, In x l -> exists b, f x = Ok b) ->
  exists kept, filter_raising f l = Ok kept.
Proof.
  induction l as [|x l IH]; intros Hf; [exists []; reflexivity|].
  destruct (Hf x) as [b Hb]; [now left|].
  destruct IH as [kept Hkept]; [intros y Hy; apply Hf; now right|].
  cbn [filter_raising]. rewrite Hb. cbn [and_then]. rewrite Hkept.
  cbn [and_then]. eauto.
Qed.

Lemma articlesTheAuthorHasWritten_defined (articles : list Article.t)
      (author : Author.t) :
  forallb has_author articles = true ->
  exists written, articlesTheAuthorHasWritten articles author = Ok written.
Proof.
  intros Hall. unfold articlesTheAuthorHasWritten.
  destruct (filter_raising_total
              (fun article =>
                 match Article.author article with
                 | None => Raise (@TypeError host)
                 | Some raw =>
                     Ok (includes (toLowerCase raw)
                                  (toLowerCase (Author.name author)))
                 end) articles) as [named Hnamed].
  - intros article Hin. rewrite forallb_forall in Hall.
    specialize (Hall article Hin). unfold has_author in Hall.
    destruct (Article.author article); [eauto|discriminate].
  - rewrite Hnamed. cbn [and_then]. eauto.
Qed.

Variables (basePath authorsPath mailchimp : jsstring) (pageLength : Z).
Variables (authors : list Author.t) (articles : list Article.t).
Hypothesis some_author : authors <> [].

Lemma article_post_run (article : Article.t) (index : nat) (w : World) :
  if has_author article
  then exists page,
         article_post basePath mailchimp authors articles article index w
         = (Ok tt, {| dataSources := dataSources w;
                      events := events w ++ [createPage page] |})
         /\ Page.path page = Article.slug article
         /\ Page.article (Page.context page) = article
         /\ Page.next (Page.context page) = next articles index
  else article_post basePath mailchimp authors articles article index w
       = (Raise (AuthorNotFound (Article.title article) None TypeError), w).
Proof.
  unfold has_author, article_post, bind, try_catch, lift, throw, emit.
  destruct (Article.author article) as [raw|] eqn:Hraw.
  - destruct (authorsThatWroteTheArticle_defined authors article Hraw)
      as [found ->].
    eexists. split; [reflexivity|]. simpl. auto.
  - now rewrite authorsThatWroteTheArticle_missing.
Qed.

Lemma forEach_article_post_run (arr : list Article.t) (index : nat) (w : World) :
  let run :=
    forEach_from (article_post basePath mailchimp authors articles) index arr w in
  let posted := takeWhile has_author arr in
  fst run
  = match first_without_author arr with
    | Some article =>
        Raise (AuthorNotFound (Article.title article) None TypeError)
    | None => Ok tt
    end
  /\ listings (events (snd run)) = listings (events w)
  /\ map (fun page => (Page.path page, Page.article (Page.context page)))
         (pages (events (snd run)))
     = map (fun page => (Page.path page, Page.article (Page.context page)))
           (pages (events w))
       ++ map (fun article => (Article.slug article, article)) posted
  /\ map (fun page => Page.next (Page.context page)) (pages (events (snd run)))
     = map (fun page => Page.next (Page.context page)) (pages (events w))
       ++ map (next articles) (seq index (length posted)).
Proof.
  cbv zeta. revert index w. unfold first_without_author.
  induction arr as [|article arr IH]; intros index w.
  - simpl. rewrite !app_nil_r. auto.
  - cbn [forEach_from find takeWhile]. rewrite bind_run.
    pose proof (article_post_run article index w) as Hpost.
    destruct (has_author article) eqn:Hauthor; cbn [negb].
    + destruct Hpost as (page & -> & Hpath & Hart & Hnext).
      destruct (IH (S index)
                   {| dataSources := dataSources w;
                      events := events w ++ [createPage page] |})
        as (R & L & P & N).
      rewrite R, L, P, N. cbn [events length seq map].
      rewrite !pages_app, !listings_app, !map_app. cbn [pages listings map].
      rewrite Hpath, Hart, Hnext, !app_nil_r, <- !app_assoc. auto.
    + rewrite Hpost. cbn [fst snd length seq map].
      rewrite !app_nil_r. auto.
Qed.

Hypothesis all_signed : forallb has_author articles = true.

Lemma author_page_run (author : Author.t) (index : nat) (w : World) :
  exists l,
    author_page authorsPath pageLength articles author index w
    = (Ok tt, {| dataSources := dataSources w;
                 events := events w ++ [createPaginatedPages l] |})
    /\ listing_owner l = Some author.
Proof.
  unfold author_page, bind, lift, emit.
  destruct (articlesTheAuthorHasWritten_defined articles author all_signed)
    as [written ->].
  eexists. split; reflexivity.
Qed.

Lemma forEach_author_page_run (arr : list Author.t) (index : nat) (w : World) :
  let run := forEach_from (author_page authorsPath pageLength articles) index arr w in
  fst run = Ok tt
  /\ pages (events (snd run)) = pages (events w)
  /\ map listing_owner (listings (events (snd run)))
     = map listing_owner (listings (events w)) ++ map Some arr.
Proof.
  cbv zeta. revert index w.
  induction arr as [|author arr IH]; intros index w.
  - simpl. rewrite app_nil_r. auto.
  - cbn [forEach_from]. rewrite bind_run.
    destruct (author_page_run author index w) as (l & -> & Howner).
    destruct (IH (S index)
                 {| dataSources := dataSources w;
                    events := events w ++ [createPaginatedPages l] |})
      as (R & P & L).
    rewrite R, P, L. cbn [events].
    rewrite pages_app, listings_app, map_app. cbn [pages listings map].
    rewrite Howner, app_nil_r, <- app_assoc. auto.
Qed.

End Outcome.

Section PassOutcome.
Context {engine : Engine} {host : Host}.
Variable graphql : Query -> outcome Exn Response.
Variable themeOptions : ThemeOptions.t.

(** What planning does, wherever it stops. *)
Lemma plan_pages_run (articles : list Article.t) (authors : list Author.t)
      (w : World) :
  authors <> [] ->
  let run := plan_pages themeOptions articles authors w in
  let posted := takeWhile has_author articles in
  fst run
  = match first_without_author articles with
    | Some article =>
        Raise (AuthorNotFound (Article.title article) None TypeError)
    | None => Ok tt
    end
  /\ map listing_owner (listings (events (snd run)))
     = map listing_owner (listings (events w))
       ++ None :: (if forallb has_author articles
                      && default true (ThemeOptions.authorsPage themeOptions)
                   then map Some authors else [])
  /\ map (fun page => (Page.path page, Page.article (Page.context page)))
         (pages (events (snd run)))
     = map (fun page => (Page.path page, Page.article (Page.context page)))
           (pages (events w))
       ++ map (fun article => (Article.slug article, article)) posted
  /\ map (fun page => Page.next (Page.context page)) (pages (events (snd run)))
     = map (fun page => Page.next (Page.context page)) (pages (events w))
       ++ map (next articles) (seq 0 (length posted)).
Proof.
  intros Hauthors. cbv zeta. unfold plan_pages, forEach, log. cbv zeta.
  rewrite bind_emit. cbv beta. rewrite bind_emit. cbv beta.
  rewrite bind_emit. cbv beta. rewrite bind_run.
  match goal with
  | |- context [forEach_from ?f 0 articles ?w3] =>
      pose proof (@forEach_article_post_run engine host
                    (default (str "/") (ThemeOptions.basePath themeOptions))
                    (default [] (ThemeOptions.mailchimp themeOptions))
                    authors articles Hauthors articles 0 w3) as Hloop;
      cbv zeta in Hloop;
      destruct (forEach_from f 0 articles w3) as [r w4]
  end.
  cbn [fst snd events] in Hloop. destruct Hloop as (R & L & P & N).
  rewrite !listings_app in L. rewrite !pages_app in P. rewrite !pages_app in N.
  cbn [pages listings] in L, P, N.
  rewrite !app_nil_r in L. rewrite !app_nil_r in P. rewrite !app_nil_r in N.
  destruct (first_without_author articles) as [article|] eqn:First.
  - subst r. cbn [fst snd].
    destruct (forallb has_author articles) eqn:Signed.
    { apply first_without_author_none in Signed. congruence. }
    cbn [andb]. rewrite L, P, N, map_app. auto.
  - subst r. apply first_without_author_none in First.
    rewrite First. cbn [andb].
    destruct (default true (ThemeOptions.authorsPage themeOptions)).
    + cbn [when]. rewrite bind_emit.
      match goal with
      | |- context [forEach_from ?f 0 authors ?w5] =>
          pose proof (@forEach_author_page_run engine host
                        (default (str "/authors")
                                 (ThemeOptions.authorsPath themeOptions))
                        (default 6%Z (ThemeOptions.pageLength themeOptions))
                        articles First authors 0 w5) as Hauth;
          cbv zeta in Hauth;
          destruct (forEach_from f 0 authors w5) as [r w6]
      end.
      cbn [fst snd events] in Hauth. destruct Hauth as (R' & P' & L').
      rewrite pages_app in P'. rewrite listings_app in L'.
      cbn [pages listings] in P', L'.
      rewrite app_nil_r in P'. rewrite app_nil_r in L'.
      cbn [fst snd]. rewrite P', L', L, P, N, !map_app, <- app_assoc. auto.
    + cbn [when ret fst snd]. rewrite L, P, N, map_app. auto.
Qed.

(** X13: the pass throws its configuration error for an empty list of articles
    or authors; otherwise it throws for the first article, newest first,
    that has no author field, naming its title; otherwise it returns. *)
Theorem createPages_outcome :
  let articles := combined_articles (aggregated graphql themeOptions) in
  let authors := combined_authors (aggregated graphql themeOptions) in
  fst (createPages graphql themeOptions start)
  = if nothing_to_publish articles authors then Raise NoAuthorOrPost
    else match first_without_author articles with
         | Some article =>
             Raise (AuthorNotFound (Article.title article) None TypeError)
         | None => Ok tt
         end.
Proof.
  cbv zeta. rewrite createPages_stages. cbv zeta.
  fold (aggregated graphql themeOptions). unfold nothing_to_publish.
  destruct (length (combined_articles (aggregated graphql themeOptions)) =? 0)%nat;
    [reflexivity|].
  destruct (combined_authors (aggregated graphql themeOptions)) as [|a authors] eqn:E;
    [reflexivity|].
  cbn [length Nat.eqb orb].
  apply plan_pages_run. discriminate.
Qed.

(** X14: the pages asked of the host are those of the articles, newest first,
    each at its slug, up to the first article without an author field; none
    when the configuration error is thrown. *)
Theorem createPages_pages_in_order :
  let articles := combined_articles (aggregated graphql themeOptions) in
  let authors := combined_authors (aggregated graphql themeOptions) in
  map (fun page => (Page.path page, Page.article (Page.context page)))
      (pages (events (snd (createPages graphql themeOptions start))))
  = map (fun article => (Article.slug article, article))
        (if nothing_to_publish articles authors then []
         else takeWhile has_author articles).
Proof.
  cbv zeta. rewrite createPages_stages. cbv zeta.
  fold (aggregated graphql themeOptions). unfold nothing_to_publish.
  destruct (load_all_quiet graphql themeOptions start) as (_ & P0 & _).
  destruct (length (combined_articles (aggregated graphql themeOptions)) =? 0)%nat;
    [cbn [orb snd]; now rewrite P0|].
  destruct (combined_authors (aggregated graphql themeOptions)) as [|a authors] eqn:E;
    [cbn [length Nat.eqb orb snd]; now rewrite P0|].
  cbn [length Nat.eqb orb].
  destruct (@plan_pages_run (combined_articles (aggregated graphql themeOptions))
              (a :: authors) (snd (load_all graphql themeOptions start)))
    as (_ & _ & P & _); [discriminate|].
  rewrite P, P0. reflexivity.
Qed.

(** X15: the page of the article at place [k], newest first, suggests
    [next articles k]. *)
Theorem createPages_pages_next :
  let articles := combined_articles (aggregated graphql themeOptions) in
  let authors := combined_authors (aggregated graphql themeOptions) in
  let posted :=
    if nothing_to_publish articles authors then []
    else takeWhile has_author articles in
  map (fun page => Page.next (Page.context page))
      (pages (events (snd (createPages graphql themeOptions start))))
  = map (next articles) (seq 0 (length posted)).
Proof.
  cbv zeta. rewrite createPages_stages. cbv zeta.
  fold (aggregated graphql themeOptions). unfold nothing_to_publish.
  destruct (load_all_quiet graphql themeOptions start) as (_ & P0 & _).
  destruct (length (combined_articles (aggregated graphql themeOptions)) =? 0)%nat;
    [cbn [orb snd]; now rewrite P0|].
  destruct (combined_authors (aggregated graphql themeOptions)) as [|a authors] eqn:E;
    [cbn [length Nat.eqb orb snd]; now rewrite P0|].
  cbn [length Nat.eqb orb].
  destruct (@plan_pages_run (combined_articles (aggregated graphql themeOptions))
              (a :: authors) (snd (load_all graphql themeOptions start)))
    as (_ & _ & _ & N); [discriminate|].
  rewrite N, P0. reflexivity.
Qed.

(** X16: the listings asked of the host are the articles listing and then, when
    author pages are on and every article has an author field, one listing
    for each author in the order of the merged author list; none when the
    configuration error is thrown. *)
Theorem createPages_listings_in_order :
  let articles := combined_articles (aggregated graphql themeOptions) in
  let authors := combined_authors (aggregated graphql themeOptions) in
  map listing_owner
      (listings (events (snd (createPages graphql themeOptions start))))
  = if nothing_to_publish articles authors then []
    else None :: (if forallb has_author articles
                     && default true (ThemeOptions.authorsPage themeOptions)
                  then map Some authors else []).
Proof.
  cbv zeta. rewrite createPages_stages. cbv zeta.
  fold (aggregated graphql themeOptions). unfold nothing_to_publish.
  destruct (load_all_quiet graphql themeOptions start) as (_ & _ & L0).
  destruct (length (combined_articles (aggregated graphql themeOptions)) =? 0)%nat;
    [cbn [orb snd]; now rewrite L0|].
  destruct (combined_authors (aggregated graphql themeOptions)) as [|a authors] eqn:E;
    [cbn [length Nat.eqb orb snd]; now rewrite L0|].
  cbn [length Nat.eqb orb].
  destruct (@plan_pages_run (combined_articles (aggregated graphql themeOptions))
              (a :: authors) (snd (load_all graphql themeOptions start)))
    as (_ & L & _ & _); [discriminate|].
  rewrite L, L0. reflexivity.
Qed.

End PassOutcome.

(** ** Sources that are off *)

Section Sources.
Context {engine : Engine} {host : Host}.

Lemma bind_ext {A B} (m m' : M A) (k k' : A -> M B) (w : World) :
  (forall w0, m w0 = m' w0) ->
  (forall a w0, k a w0 = k' a w0) ->
  bind m k w = bind m' k' w.
Proof.
  intros Hm Hk. unfold bind. rewrite Hm.
  destruct (m' w) as [[a|e] w1]; [apply Hk|reflexivity].
Qed.

Lemma when_ext (b : bool) (m m' : M unit) (w : World) :
  (b = true -> forall w0, m w0 = m' w0) -> when b m w = when b m' w.
Proof. destruct b; simpl; auto. Qed.

Lemma load_source_ext (g g' : Query -> outcome Exn Response)
      (source : Source) (w : World) :
  g (query_authors source) = g' (query_authors source) ->
  g (query_articles source) = g' (query_articles source) ->
  load_source g source w = load_source g' source w.
Proof.
  intros Ha Hb. rewrite !load_source_run. cbv zeta. now rewrite Ha, Hb.
Qed.

(** X17: the answers of the host to the queries of a source that is off do not
    matter: with the same answers for the sources that are on, the pass does
    the same. *)
Theorem disabled_source_not_consulted
        (g g' : Query -> outcome Exn Response)
        (themeOptions : ThemeOptions.t) (w : World) :
  (forall q, enabled themeOptions (source_of q) = true -> g q = g' q) ->
  createPages g themeOptions w = createPages g' themeOptions w.
Proof.
  intros Hsame. unfold createPages. cbv zeta.
  apply bind_ext; [reflexivity|intros _ w1].
  apply bind_ext; [reflexivity|intros _ w2].
  apply bind_ext; [reflexivity|intros _ w3].
  apply bind_ext.
  - intros w4. apply when_ext. intros Hon w5.
    apply load_source_ext; apply Hsame; exact Hon.
  - intros _ w4. apply bind_ext; [|reflexivity].
    intros w5. apply when_ext. intros Hon w6.
    apply load_source_ext; apply Hsame; exact Hon.
Qed.

(** X18: with both sources off the pass throws its configuration error, whatever
    the host holds. *)
Theorem no_source_is_fatal (graphql : Query -> outcome Exn Response)
        (themeOptions : ThemeOptions.t) :
  enabled themeOptions Local = false ->
  enabled themeOptions Contentful = false ->
  fst (createPages graphql themeOptions start) = Raise NoAuthorOrPost.
Proof.
  unfold enabled. cbv zeta. intros Hlocal Hcontentful.
  rewrite createPages_stages. cbv zeta.
  assert (Hnone : dataSources (snd (load_all graphql themeOptions start))
                  = DataSources.initial).
  { unfold load_all. cbv zeta. rewrite Hlocal, Hcontentful.
    destruct (default true (ThemeOptions.authorsPage themeOptions)); reflexivity. }
  rewrite Hnone. reflexivity.
Qed.

End Sources.

(** ** Credited authors and author pages *)

Lemma startsWith_app (t post : jsstring) : startsWith (t ++ post) t = true.
Proof.
  induction t as [|c t IH]; simpl; [now destruct post|].
  now rewrite N.eqb_refl.
Qed.

Lemma includes_substring (lead t trail : jsstring) :
  includes (lead ++ t ++ trail) t = true.
Proof.
  induction lead as [|c lead IH].
  - change ([] ++ t ++ trail) with (t ++ trail).
    pose proof (startsWith_app t trail) as Hhere.
    destruct (t ++ trail); simpl in *; now rewrite Hhere.
  - change ((c :: lead) ++ t ++ trail) with (c :: (lead ++ t ++ trail)).
    cbn [includes]. rewrite IH. apply orb_true_r.
Qed.

Lemma split_first_piece (sep : code_unit) (s : jsstring) :
  exists piece pieces trail,
    split sep s = piece :: pieces /\ s = piece ++ trail.
Proof.
  induction s as [|c s (piece & pieces & trail & E & Es)]; simpl.
  - exists [], [], []. auto.
  - destruct (N.eqb c sep).
    + exists [], (split sep s), (c :: s). auto.
    + rewrite E. exists (c :: piece), pieces, trail. simpl. now rewrite <- Es.
Qed.

Lemma split_piece_substring (sep : code_unit) (s piece : jsstring) :
  In piece (split sep s) ->
  exists lead trail, s = lead ++ piece ++ trail.
Proof.
  induction s as [|c s IH]; simpl.
  - intros [<-|[]]. now exists [], [].
  - destruct (N.eqb c sep).
    + intros [<-|Hin].
      * now exists [], (c :: s).
      * destruct (IH Hin) as (lead & trail & E).
        exists (c :: lead), trail. simpl. now rewrite <- E.
    + destruct (split_first_piece sep s) as (first & pieces & trail & E & Es).
      rewrite E in *. intros [<-|Hin].
      * exists [], trail. simpl. now rewrite <- Es.
      * destruct IH as (lead & trail' & E'); [now right|].
        exists (c :: lead), trail'. simpl. now rewrite <- E'.
Qed.

Lemma trim_substring (s : jsstring) :
  exists lead trail, s = lead ++ trim s ++ trail.
Proof.
  unfold trim.
  destruct (dropWhile_suffix isWhiteSpace s) as [lead E].
  destruct (dropWhileEnd_prefix isWhiteSpace (dropWhile isWhiteSpace s))
    as [trail E'].
  exists lead, trail. rewrite <- E'. exact E.
Qed.

Section Credited.
Context {engine : Engine} {host : Host}.

(** What [toLowerCase] does to a string of ASCII code units: A-Z become a-z,
    one by one, and nothing else changes. *)
Hypothesis toLowerCase_ascii :
  forall s, Forall (fun c => (c < 128)%N) s -> toLowerCase s = map Basic.lower s.

Lemma credited_names_author (authors found : list Author.t)
      (article : Article.t) (author : Author.t) (raw : jsstring) :
  Article.author article = Some raw ->
  Forall (fun c => (c < 128)%N) raw ->
  authorsThatWroteTheArticle authors article = Ok found ->
  In author found ->
  names_author article author.
Proof.
  intros Hraw Hascii Hfound Hin. unfold authorsThatWroteTheArticle in Hfound.
  apply (filter_raising_ok _ _ Hfound) in Hin as [_ Hmatch].
  unfold names_author. rewrite Hraw in *.
  exists raw. split; [reflexivity|].
  injection Hmatch as Hmatch.
  apply existsb_exists in Hmatch as (a & Ha & Heq).
  apply eqb_eq in Heq. subst a.
  apply in_map_iff in Ha as (piece & Hlower & Hpiece).
  destruct (split_piece_substring _ _ _ Hpiece) as (lead & trail & Eraw).
  destruct (trim_substring piece) as (lead' & trail' & Epiece).
  assert (Esplit : raw = (lead ++ lead') ++ trim piece ++ (trail' ++ trail)).
  { rewrite Eraw at 1. rewrite Epiece at 1. now rewrite <- !app_assoc. }
  assert (Htrim : Forall (fun c => (c < 128)%N) (trim piece)).
  { rewrite Esplit in Hascii. apply Forall_app in Hascii as [_ Hascii].
    now apply Forall_app in Hascii as [Hascii _]. }
  rewrite <- Hlower, (toLowerCase_ascii Htrim), (toLowerCase_ascii Hascii).
  rewrite Esplit at 1. rewrite !map_app. apply includes_substring.
Qed.

(** X19: for an article whose author field is made of ASCII code units, an
    author that the article's page credits has that article on their own
    page, unless it is secret. *)
Theorem credited_author_has_article
        (authors found : list Author.t) (articles written : list Article.t)
        (article : Article.t) (author : Author.t) (raw : jsstring) :
  Article.author article = Some raw ->
  Forall (fun c => (c < 128)%N) raw ->
  authorsThatWroteTheArticle authors article = Ok found ->
  In author found ->
  articlesTheAuthorHasWritten articles author = Ok written ->
  In article articles ->
  Article.secret article = false ->
  In article written.
Proof.
  intros Hraw Hascii Hfound Hin Hwritten Harticle Hsecret.
  apply (articlesTheAuthorHasWritten_ok _ _ Hwritten).
  split; [exact Harticle|]. split; [exact Hsecret|].
  eapply credited_names_author; eauto.
Qed.

End Credited.

(** ** More runs on the basic host *)

Section MoreBasicRuns.
#[local] Existing Instance Basic.engine.
#[local] Existing Instance Basic.host.
Import Basic.

Lemma getUniqueListBy_keeps_distinct_witness :
  getUniqueListBy [mkAuthor "Ann"; mkAuthor "Bob"] Author.name
  = [mkAuthor "Ann"; mkAuthor "Bob"].
Proof.
  apply getUniqueListBy_keeps_distinct.
  constructor; [intros [H|[]]; discriminate H|].
  constructor; [intros []|constructor].
Defined.

Lemma next_is_cyclic_witness :
  next [1; 2; 3; 4] 3
  = article_at [1; 2; 3; 4] ((3 + 1) mod 4) ++ article_at [1; 2; 3; 4] ((3 + 2) mod 4)
  /\ length (next [1; 2; 3; 4] 3) = 2.
Proof.
  apply (@next_is_cyclic nat [1; 2; 3; 4] 3); simpl; lia.
Defined.

Lemma next_excludes_itself_witness : ~ In 4 (next [1; 2; 3; 4] 3).
Proof.
  apply (@next_excludes_itself nat [1; 2; 3; 4] 3 4).
  - repeat (constructor; [simpl; intuition discriminate|]). constructor.
  - simpl. lia.
  - reflexivity.
Defined.

Lemma next_within_articles_witness :
  length (next [1; 2] 1) <= 2
  /\ forall article, In article (next [1; 2] 1) -> In article [1; 2].
Proof.
  apply (@next_within_articles nat [1; 2] 1).
Defined.

Lemma buildPaginatedPath_distinct_witness :
  buildPaginatedPath 2 (str "/blog") <> buildPaginatedPath 3 (str "/blog").
Proof.
  apply buildPaginatedPath_distinct; [lia|discriminate].
Defined.

Lemma buildPaginatedPath_trailing_slash_witness :
  buildPaginatedPath 2 (str "/blog" ++ str "/")
  = str "/blog" ++ str "//page/" ++ Number_toString 2.
Proof.
  apply buildPaginatedPath_trailing_slash; [lia|discriminate].
Defined.

Lemma slugify_shape_witness :
  exists name,
    slugify (str "Dennis Brotzky") (str "/authors")
    = str "/authors" ++ str "/" ++ name
    /\ Forall (fun c => is_a_z_0_9 c || is_hyphen c = true) name
    /\ single_hyphens name = true
    /\ starts_with_hyphen name = false
    /\ starts_with_hyphen (rev name) = false.
Proof.
  apply (@slugify_shape Basic.engine). reflexivity.
Defined.

Lemma disabled_source_not_consulted_witness :
  let local_only := graphql_of [mkAuthor "Ann"] [mkArticle "Post" "Ann" 1 false] in
  let both :=
    fun q =>
      match source_of q with
      | Local => local_only q
      | Contentful => Ok [article_edge (mkArticle "Other" "Ann" 2 false)]
      end in
  createPages local_only noOptions start = createPages both noOptions start.
Proof.
  cbv zeta. apply (@disabled_source_not_consulted Basic.engine Basic.host).
  intros [[]|[]] Hon; try reflexivity; discriminate Hon.
Defined.

Lemma no_source_is_fatal_witness :
  let off :=
    {| ThemeOptions.basePath := None;
       ThemeOptions.authorsPath := None;
       ThemeOptions.authorsPage := None;
       ThemeOptions.pageLength := None;
       ThemeOptions.sources :=
         Some {| ThemeOptions.local := Some false;
                 ThemeOptions.contentful := None |};
       ThemeOptions.mailchimp := None |} in
  fst (createPages (graphql_of [mkAuthor "Ann"] [mkArticle "Post" "Ann" 1 false])
                   off start)
  = Raise NoAuthorOrPost.
Proof.
  cbv zeta. apply (@no_source_is_fatal Basic.engine Basic.host); reflexivity.
Defined.

Lemma credited_author_has_article_witness :
  let ann := mkAuthor "Ann" in
  let bob := mkAuthor "Bob" in
  let post := mkArticle "Post" " ann , BOB" 1 false in
  Forall (fun c => (c < 128)%N) (str " ann , BOB")
  /\ authorsThatWroteTheArticle [ann; bob] post = Ok [ann; bob]
  /\ articlesTheAuthorHasWritten [post] bob = Ok [post]
  /\ In post [post].
Proof.
  cbv zeta.
  assert (Hascii : Forall (fun c => (c < 128)%N) (str " ann , BOB"))
    by (repeat constructor).
  assert (Hfound : authorsThatWroteTheArticle
                     [mkAuthor "Ann"; mkAuthor "Bob"]
                     (mkArticle "Post" " ann , BOB" 1 false)
                   = Ok [mkAuthor "Ann"; mkAuthor "Bob"])
    by (vm_compute; reflexivity).
  assert (Hwritten : articlesTheAuthorHasWritten
                       [mkArticle "Post" " ann , BOB" 1 false] (mkAuthor "Bob")
                     = Ok [mkArticle "Post" " ann , BOB" 1 false])
    by (vm_compute; reflexivity).
  split; [exact Hascii|]. split; [exact Hfound|]. split; [exact Hwritten|].
  apply (@credited_author_has_article Basic.engine Basic.host
           (fun s _ => eq_refl)
           [mkAuthor "Ann"; mkAuthor "Bob"] [mkAuthor "Ann"; mkAuthor "Bob"]
           [mkArticle "Post" " ann , BOB" 1 false]
           [mkArticle "Post" " ann , BOB" 1 false]
           (mkArticle "Post" " ann , BOB" 1 false) (mkAuthor "Bob")
           (str " ann , BOB")
           eq_refl Hascii Hfound (or_intror (or_introl eq_refl)) Hwritten
           (or_introl eq_refl) eq_refl).
Defined.

End MoreBasicRuns.
